(** * Dog-breed mirror: validator, durable store, fetch client, ingestion
    run, read endpoint and job scheduler

    A shallow embedding of [backend/app.py], [backend/dog_cache.py] and
    [backend/background_jobs.py], and the properties of the specification
    that were checked against it.

    Conventions of the embedding.
    - A Python [str] is a Rocq [string]; a character stands for the code point
      of the same number (0..255), so [len] is [String.length].  [str.strip],
      [str.lower] and the [in] operator are written out on that range.
    - A decoded JSON value is a [pyval]; a Python dict used as a JSON object is
      an association list read with [dict_get].
    - The SQLite table [dogs] is a finite map from the primary key [breed] to
      the remaining columns.
    - Clock readings ([time.time()], [datetime.now()]) are integers.
    - The upstream service and the clock are the environment: they are
      functions of the history of events so far.  Calls to the logger that
      mark control flow are kept as events of that history. *)

From Stdlib Require Import ZArith NArith Ascii String List Bool Lia.
From stdpp Require Import gmap strings list.
Import ListNotations.

Local Open Scope Z_scope.

(** ** Python strings *)

Module PyStr.

Definition code (c : ascii) : N := N_of_ascii c.

(** [str.isspace] on one character: TAB..CR, FS..US, SPACE, NEL, NBSP. *)
Definition is_space (c : ascii) : bool :=
  let n := code c in
  ((9 <=? n) && (n <=? 13) || (28 <=? n) && (n <=? 32)
   || (n =? 133) || (n =? 160))%N.

(** [str.lower] on one character: A-Z and the accented capitals
    U+00C0..U+00DE (all but the multiplication sign U+00D7) move up by 32. *)
Definition lower_char (c : ascii) : ascii :=
  let n := code c in
  if ((65 <=? n) && (n <=? 90)
      || (192 <=? n) && (n <=? 222) && negb (n =? 215))%N
  then ascii_of_N (n + 32) else c.

Fixpoint lower (s : string) : string :=
  match s with
  | EmptyString => EmptyString
  | String c s' => String (lower_char c) (lower s')
  end.

Fixpoint lstrip (s : string) : string :=
  match s with
  | EmptyString => EmptyString
  | String c s' => if is_space c then lstrip s' else s
  end.

Fixpoint rstrip (s : string) : string :=
  match s with
  | EmptyString => EmptyString
  | String c s' =>
      match rstrip s' with
      | EmptyString => if is_space c then EmptyString else String c EmptyString
      | r => String c r
      end
  end.

(** [s.strip()] *)
Definition strip (s : string) : string := rstrip (lstrip s).

(** [pat in s] *)
Fixpoint str_in (pat s : string) : bool :=
  String.prefix pat s
  || match s with
     | EmptyString => false
     | String _ s' => str_in pat s'
     end.

Definition len (s : string) : Z := Z.of_nat (String.length s).

End PyStr.

(** ** Decoded JSON values *)

#[warnings="-register-all"]
Inductive pyval : Type :=
| PNone
| PBool (b : bool)
| PInt (n : Z)
| PFloat (mantissa exponent : Z)
| PStr (s : string)
| PList (l : list pyval)
| PDict (d : list (string * pyval)).

(** A validated record, the dict [{"breed": .., "image": ..}]. *)
Record dog : Type := mkDog { breed : string; image : string }.

Module Validator.
Import PyStr.

(** [d.get(k)]: [None] when the key is absent. *)
Fixpoint dict_get (d : list (string * pyval)) (k : string) : pyval :=
  match d with
  | [] => PNone
  | (k', v) :: d' => if String.eqb k' k then v else dict_get d' k
  end.

(** Truth value of an object, as [not v] tests it. *)
Definition truthy (v : pyval) : bool :=
  match v with
  | PNone => false
  | PBool b => b
  | PInt n => negb (n =? 0)
  | PFloat m _ => negb (m =? 0)
  | PStr s => negb (String.eqb s EmptyString)
  | PList l => match l with [] => false | _ => true end
  | PDict d => match d with [] => false | _ => true end
  end.

(** [isinstance(v, str)] *)
Definition is_str (v : pyval) : bool :=
  match v with PStr _ => true | _ => false end.

(** [isinstance(v, dict)] *)
Definition is_dict (v : pyval) : bool :=
  match v with PDict _ => true | _ => false end.

(** The string held by a value that passed the [isinstance(v, str)] test. *)
Definition str_of (v : pyval) : string :=
  match v with PStr s => s | _ => EmptyString end.

Definition items_of (v : pyval) : list (string * pyval) :=
  match v with PDict d => d | _ => [] end.

Definition bad_extensions : list string :=
  [".jpg"; ".jpeg"; ".png"; ".gif"; ".webp"]%string.

(** [validate_and_normalize_dog_data]; the two warnings it logs are left
    out, [None] is the rejection. *)
Definition validate_and_normalize_dog_data (data : pyval) : option dog :=
  if negb (is_dict data) then None else
  let breed := dict_get (items_of data) "breed" in
  let image := dict_get (items_of data) "image" in
  if negb (truthy breed) || negb (is_str breed)
     || (len (strip (str_of breed)) =? 0)
  then None else
  let breed := strip (str_of breed) in
  if (60 <? len breed)
     || str_in "http://" (lower breed)
     || str_in "https://" (lower breed)
     || existsb (fun ext => str_in ext (lower breed)) bad_extensions
  then None else
  let image :=
    if negb (truthy image) || negb (is_str image)
       || (len (strip (str_of image)) =? 0)
    then EmptyString
    else strip (str_of image) in
  Some {| breed := breed; image := image |}.

End Validator.

(** ** Durable store: the SQLite table [dogs] *)

Module DogCache.

(** The columns of a row besides the primary key [breed]. *)
Record row : Type := mkRow {
  row_image : string;
  created_at : Z;
  updated_at : Z
}.

Abbreviation table := (gmap string row).

(** [init_db]: [CREATE TABLE IF NOT EXISTS] keeps a table that is already in
    the file; [None] is a file without the table. *)
Definition init_db (file : option table) : table :=
  match file with
  | Some t => t
  | None => ∅
  end.

(** One [INSERT OR REPLACE INTO dogs (breed, image, updated_at)]: a row with
    the same key is dropped, the new row takes the column default
    [CURRENT_TIMESTAMP] for [created_at]; one row is counted as changed. *)
Definition insert_or_replace (now : Z) (acc : Z * table) (d : dog) : Z * table :=
  (fst acc + 1, <[breed d := mkRow (image d) now now]> (snd acc)).

(** [cursor.executemany]: one statement per parameter tuple, in order;
    [cursor.rowcount] is the sum of the rows changed. *)
Definition executemany (now : Z) (dogs : list dog) (t : table) : Z * table :=
  fold_left (insert_or_replace now) dogs (0, t).

(** [add_dogs_batch], at clock reading [now]: the count returned and the
    table after the commit. *)
Definition add_dogs_batch (now : Z) (dogs : list dog) (t : table) : Z * table :=
  match dogs with
  | [] => (0, t)
  | _ => executemany now dogs t
  end.

(** [get_all_dogs_dict]: the dict [{breed: image}] read by the [SELECT], and
    the table as the read leaves it. *)
Definition get_all_dogs_dict (t : table) : gmap string string * table :=
  (row_image <$> t, t).

(** The snapshot alone. *)
Definition snapshot (t : table) : gmap string string :=
  fst (get_all_dogs_dict t).

End DogCache.

(** ** Configuration of [app.py] *)

Definition ITEMS_PER_PAGE : Z := 15.
Definition MAX_RETRIES : Z := 3.
Definition RETRY_DELAY : Z := 1.
Definition MAX_EXTERNAL_PAGES : Z := 50.

(** [list(range(a, b))] *)
Definition py_range (a b : Z) : list Z := seqZ a (b - a).

(** ** Fetch client and ingestion run *)

Module Ingest.
Import PyStr Validator.

(** What one [requests.get] followed by [response.json()] can give: an
    exception (timeout, connection failure), or a response with its status
    code and its body, [None] for a body that is not JSON. *)
Inductive response : Type :=
| Raises
| Reply (status_code : Z) (json : option pyval).

Inductive event : Type :=
| Get (page : Z)
| Sleep (seconds : Z)
| LogFetching (page attempt : Z)
| LogFetched (page items : Z)
| LogInvalidFormat (page : Z)
| LogStatus (status_code page : Z)
| LogError (page : Z)
| LogFailed (page : Z)
| LogPlan (start_page : Z) (max_pages : option Z)
| LogSkipping (page consecutive : Z)
| LogStopping (consecutive page : Z)
| LogEmptyPage (page : Z)
| LogProcessed (page validated fetched : Z)
| LogComplete (total_fetched total_in_cache : Z).

(** The process state the run works on: the events so far, the table behind
    [db_cache] and the global [last_fetch_time]. *)
Record state : Type := mkState {
  history : list event;
  db : gmap string DogCache.row;
  last_fetch_time : option Z
}.

Definition M (A : Type) : Type := state -> A * state.

Definition ret {A : Type} (a : A) : M A := fun s => (a, s).

Definition bind {A B : Type} (m : M A) (k : A -> M B) : M B :=
  fun s => let (a, s') := m s in k a s'.

Notation "x <- m ;; k" := (bind m (fun x => k))
  (at level 100, m at next level, right associativity).
Notation "m ;;; k" := (bind m (fun _ => k))
  (at level 100, right associativity).

Definition emit (e : event) : M unit :=
  fun s => (tt, mkState (history s ++ [e]) (db s) (last_fetch_time s)).

Section Environment.

(** The reply of the upstream service to a request for a page, and the
    reading of the clock, after a given history. *)
Variable upstream : list event -> Z -> response.
Variable clock : list event -> Z.

(** [requests.get(url, timeout=10)] for [url = f"{EXTERNAL_API_BASE}?page={page}"] *)
Definition http_get (page : Z) : M response :=
  fun s => (upstream (history s) page,
            mkState (history s ++ [Get page]) (db s) (last_fetch_time s)).

(** The body of the [try] of one attempt: [Some data] is the [return data]. *)
Definition attempt_once (page attempt : Z) : M (option (list pyval)) :=
  emit (LogFetching page attempt) ;;;
  response <- http_get page ;;
  match response with
  | Raises => emit (LogError page) ;;; ret None
  | Reply status_code body =>
      if status_code =? 200 then
        match body with
        | None => emit (LogError page) ;;; ret None
        | Some (PList data) =>
            emit (LogFetched page (Z.of_nat (length data))) ;;;
            ret (Some data)
        | Some _ => emit (LogInvalidFormat page) ;;; ret None
        end
      else emit (LogStatus status_code page) ;;; ret None
  end.

(** The [for attempt in range(1, MAX_RETRIES + 1)] of [fetch_with_retry]
    and the two statements after it. *)
Fixpoint retry_loop (page : Z) (attempts : list Z) : M (option (list pyval)) :=
  match attempts with
  | [] => emit (LogFailed page) ;;; ret None
  | attempt :: rest =>
      r <- attempt_once page attempt ;;
      match r with
      | Some data => ret (Some data)
      | None =>
          (if attempt <? MAX_RETRIES
           then emit (Sleep (RETRY_DELAY * 2 ^ (attempt - 1)))
           else ret tt) ;;;
          retry_loop page rest
      end
  end.

Definition fetch_with_retry (page : Z) : M (option (list pyval)) :=
  retry_loop page (py_range 1 (MAX_RETRIES + 1)).

(** [db_cache.add_dogs_batch(validated_dogs)] *)
Definition add_dogs_batch (dogs : list dog) : M Z :=
  fun s =>
    let (n, t) := DogCache.add_dogs_batch (clock (history s)) dogs (db s) in
    (n, mkState (history s) t (last_fetch_time s)).

(** The inner [for item in external_data] that collects [validated_dogs]. *)
Definition validate_all (external_data : list pyval) : list dog :=
  omap validate_and_normalize_dog_data external_data.

(** The [for external_page in range(start_page, end_page)] of
    [fetch_dogs_from_api], with the two counters it carries; it yields
    [total_fetched] as it stands when the loop is left. *)
Fixpoint pages_loop (pages : list Z) (consecutive_failures total_fetched : Z)
  : M Z :=
  match pages with
  | [] => ret total_fetched
  | external_page :: rest =>
      external_data <- fetch_with_retry external_page ;;
      match external_data with
      | None =>
          let consecutive_failures := consecutive_failures + 1 in
          emit (LogSkipping external_page consecutive_failures) ;;;
          if 10 <=? consecutive_failures then
            emit (LogStopping consecutive_failures external_page) ;;;
            ret total_fetched
          else pages_loop rest consecutive_failures total_fetched
      | Some external_data =>
          let consecutive_failures := 0 in
          if Z.of_nat (length external_data) =? 0 then
            emit (LogEmptyPage external_page) ;;;
            ret total_fetched
          else
            let validated_dogs := validate_all external_data in
            match validated_dogs with
            | [] => pages_loop rest consecutive_failures total_fetched
            | _ =>
                added_count <- add_dogs_batch validated_dogs ;;
                emit (LogProcessed external_page
                        (Z.of_nat (length validated_dogs))
                        (Z.of_nat (length external_data))) ;;;
                pages_loop rest consecutive_failures
                  (total_fetched + added_count)
            end
      end
  end.

(** The test [if max_pages:] *)
Definition given (max_pages : option Z) : bool :=
  match max_pages with
  | Some n => negb (n =? 0)
  | None => false
  end.

Definition end_page (start_page : Z) (max_pages : option Z) : Z :=
  match max_pages with
  | Some n =>
      if given max_pages
      then Z.min (start_page + n) (MAX_EXTERNAL_PAGES + 1)
      else MAX_EXTERNAL_PAGES + 1
  | None => MAX_EXTERNAL_PAGES + 1
  end.

Definition set_last_fetch_time : M unit :=
  fun s => (tt, mkState (history s) (db s) (Some (clock (history s)))).

Definition cache_size : M Z :=
  fun s => (Z.of_nat (size (DogCache.snapshot (db s))), s).

(** [fetch_dogs_from_api(start_page, max_pages)] *)
Definition fetch_dogs_from_api (start_page : Z) (max_pages : option Z) : M Z :=
  emit (LogPlan start_page max_pages) ;;;
  total_fetched <-
    pages_loop (py_range start_page (end_page start_page max_pages)) 0 0 ;;
  set_last_fetch_time ;;;
  total_in_cache <- cache_size ;;
  emit (LogComplete total_fetched total_in_cache) ;;;
  ret total_fetched.

(** The pages for which a request was sent, in order. *)
Definition requested (h : list event) : list Z :=
  omap (fun e => match e with Get p => Some p | _ => None end) h.

(** Requests and pauses, the logger's lines dropped. *)
Definition is_io (e : event) : bool :=
  match e with Get _ | Sleep _ => true | _ => false end.

End Environment.

Definition initial (t : gmap string DogCache.row) : state :=
  mkState [] t None.

End Ingest.

(** ** Read endpoint *)

Module ReadApi.

(** Order of the [(breed, image)] tuples under [sorted]. *)
Definition item_leb (a b : string * string) : bool :=
  match String.compare (fst a) (fst b) with
  | Lt => true
  | Eq => String.leb (snd a) (snd b)
  | Gt => false
  end.

Fixpoint insert_item (x : string * string) (l : list (string * string))
  : list (string * string) :=
  match l with
  | [] => [x]
  | y :: l' => if item_leb x y then x :: l else y :: insert_item x l'
  end.

(** [sorted(d.items())] *)
Definition sorted_items (d : gmap string string) : list (string * string) :=
  fold_right insert_item [] (map_to_list d).

(** A slice bound as Python adjusts it for a sequence of length [n]: a
    negative bound counts from the end, and both are clipped to [0..n]. *)
Definition slice_bound (n i : Z) : Z :=
  if i <? 0 then Z.max (i + n) 0 else Z.min i n.

(** [l[start:stop]] *)
Definition py_slice {A : Type} (l : list A) (start stop : Z) : list A :=
  let n := Z.of_nat (length l) in
  let lo := slice_bound n start in
  let hi := slice_bound n stop in
  firstn (Z.to_nat (hi - lo)) (skipn (Z.to_nat lo) l).

(** [request.args.get("page", type=int, default=1)]: [None] is a query
    without the parameter, or with one that does not read as an integer. *)
Definition page_arg (arg : option Z) : Z :=
  match arg with
  | Some p => p
  | None => 1
  end.

(** [get_dogs]: the list put in the JSON body and the status code.  Nothing
    in the [try] raises, so the 500 branch is not taken. *)
Definition get_dogs (arg : option Z) (t : gmap string DogCache.row)
  : list dog * Z :=
  let page := page_arg arg in
  let all_dogs_dict := DogCache.snapshot t in
  let all_dogs :=
    map (fun item => {| breed := fst item; image := snd item |})
        (sorted_items all_dogs_dict) in
  let start_idx := (page - 1) * ITEMS_PER_PAGE in
  let end_idx := start_idx + ITEMS_PER_PAGE in
  let page_data := py_slice all_dogs start_idx end_idx in
  (page_data, 200).

(** [total_pages] of [get_stats]: [math.ceil(total_dogs / ITEMS_PER_PAGE)],
    and 0 for an empty store. *)
Definition total_pages (t : gmap string DogCache.row) : Z :=
  let total_dogs := Z.of_nat (size (DogCache.snapshot t)) in
  if 0 <? total_dogs
  then (total_dogs + ITEMS_PER_PAGE - 1) / ITEMS_PER_PAGE
  else 0.

End ReadApi.

(** ** Job scheduler *)

Module Scheduler.

Inductive msg : Type :=
| RunningOnce (name : string)
| CompletedOnce (name : string)
| ErrorOnce (name : string)
| Running (name : string)
| Completed (name : string)
| Error (name : string).

Section Jobs.

(** Everything a job's function can read and change. *)
Variable World : Type.

(** A call either returns or raises an [Exception]; either way it may
    have changed the world. *)
Inductive outcome : Type :=
| Returned (w : World)
| Raised (w : World).

Record callable : Type := mkCallable {
  __name__ : string;
  call : World -> outcome
}.

(** The dict built by [add_job]. *)
Record job : Type := mkJob {
  func : callable;
  interval : option Z;
  name : string;
  last_run : Z;
  run_once : bool
}.

(** [name or func.__name__] *)
Definition name_or (name : option string) (func : callable) : string :=
  match name with
  | Some n => if String.eqb n EmptyString then __name__ func else n
  | None => __name__ func
  end.

(** [add_job(func, interval_seconds, name)] on the list [self.jobs] *)
Definition add_job (jobs : list job) (func : callable)
           (interval_seconds : option Z) (name : option string) : list job :=
  jobs ++ [ {| func := func;
               interval := interval_seconds;
               name := name_or name func;
               last_run := 0;
               run_once := match interval_seconds with
                           | None => true
                           | Some _ => false
                           end |} ].

Definition set_last_run (j : job) (t : Z) : job :=
  {| func := func j; interval := interval j; name := name j;
     last_run := t; run_once := run_once j |}.

(** The body of [for job in self.jobs[:]] for one job: whether the job
    stays in [self.jobs] (and with which [last_run]), the world after it,
    and the lines logged.  [None] is the [TypeError] of comparing a number
    with an interval that is [None], raised outside any [try]. *)
Definition run_job (current_time : Z) (j : job) (w : World)
  : option (option job * World * list msg) :=
  if run_once j then
    match call (func j) w with
    | Returned w' =>
        Some (None, w', [RunningOnce (name j); CompletedOnce (name j)])
    | Raised w' =>
        Some (None, w', [RunningOnce (name j); ErrorOnce (name j)])
    end
  else
    let time_since_last_run := current_time - last_run j in
    match interval j with
    | None => None
    | Some every =>
        if every <=? time_since_last_run then
          match call (func j) w with
          | Returned w' =>
              Some (Some (set_last_run j current_time), w',
                    [Running (name j); Completed (name j)])
          | Raised w' =>
              Some (Some j, w', [Running (name j); Error (name j)])
          end
        else Some (Some j, w, [])
    end.

Definition keep (k : option job) (jobs : list job) : list job :=
  match k with
  | Some j => j :: jobs
  | None => jobs
  end.

(** One pass of the [while] body at clock reading [current_time] over the
    copy [self.jobs[:]]: the list [self.jobs] after it. *)
Fixpoint tick (current_time : Z) (snapshot : list job) (w : World)
  : option (list job * World * list msg) :=
  match snapshot with
  | [] => Some ([], w, [])
  | j :: rest =>
      match run_job current_time j w with
      | None => None
      | Some (k, w1, out1) =>
          match tick current_time rest w1 with
          | None => None
          | Some (jobs, w2, out2) => Some (keep k jobs, w2, out1 ++ out2)
          end
      end
  end.

(** [_run_loop]: one pass per clock reading in [times], the readings
    [time.time()] gives while [self.running] holds; the lines logged are
    grouped by pass. *)
Fixpoint _run_loop (times : list Z) (jobs : list job) (w : World)
  : option (list job * World * list (list msg)) :=
  match times with
  | [] => Some (jobs, w, [])
  | current_time :: later =>
      match tick current_time jobs w with
      | None => None
      | Some (jobs1, w1, out) =>
          match _run_loop later jobs1 w1 with
          | None => None
          | Some (jobs2, w2, outs) => Some (jobs2, w2, out :: outs)
          end
      end
  end.

End Jobs.

Arguments Returned {World} w.
Arguments Raised {World} w.
Arguments mkCallable {World} _ _.
Arguments __name__ {World} _.
Arguments call {World} _ _.
Arguments func {World} _.
Arguments interval {World} _.
Arguments name {World} _.
Arguments last_run {World} _.
Arguments run_once {World} _.
Arguments add_job {World} _ _ _ _.
Arguments set_last_run {World} _ _.
Arguments run_job {World} _ _ _.
Arguments keep {World} _ _.
Arguments tick {World} _ _ _.
Arguments _run_loop {World} _ _ _.
Arguments name_or {World} _ _.

End Scheduler.


(** ** Auxiliary definitions used to state and prove the properties *)

(** The batch as it acts on the key-to-value snapshot. *)
Definition upsert_images (m : gmap string string) (dogs : list dog)
  : gmap string string :=
  fold_left (fun acc d => <[breed d := image d]> acc) dogs m.

(** The image the batch leaves under key [k], if the batch names [k]. *)
Fixpoint last_image (k : string) (dogs : list dog) : option string :=
  match dogs with
  | [] => None
  | d :: dogs' =>
      match last_image k dogs' with
      | Some v => Some v
      | None => if decide (breed d = k) then Some (image d) else None
      end
  end.


(** An attempt that does not give a page: the request raises, the status is
    not 200, or the body is not a JSON array. *)
Definition failed_attempt (r : Ingest.response) : Prop :=
  match r with
  | Ingest.Raises => True
  | Ingest.Reply status_code body =>
      status_code <> 200 \/ (forall data, body <> Some (PList data))
  end.

(** The state with more events in its history. *)
Definition extend (s : Ingest.state) (events : list Ingest.event) : Ingest.state :=
  Ingest.mkState (Ingest.history s ++ events) (Ingest.db s)
                 (Ingest.last_fetch_time s).

(** The pause, if any, that follows a failed attempt. *)
Definition pause_after (attempt : Z) : list Ingest.event :=
  if attempt <? MAX_RETRIES
  then [Ingest.Sleep (RETRY_DELAY * 2 ^ (attempt - 1))]
  else [].

(** The page at which an event ends a run: the line logged for a page that
    came back with no item, and the line logged when the streak of failures
    reaches its bound. *)
Definition stop_at (e : Ingest.event) : option Z :=
  match e with
  | Ingest.LogFetched page items => if items =? 0 then Some page else None
  | Ingest.LogStopping _ page => Some page
  | _ => None
  end.

(** The events a call of [fetch_dogs_from_api] adds to the history. *)
Definition run_events (upstream : list Ingest.event -> Z -> Ingest.response)
           (clock : list Ingest.event -> Z)
           (start_page : Z) (max_pages : option Z) (s : Ingest.state)
  : list Ingest.event :=
  drop (length (Ingest.history s))
       (Ingest.history
          (snd (Ingest.fetch_dogs_from_api upstream clock start_page max_pages s))).

#[global] Instance event_eq_dec : EqDecision Ingest.event.
Proof. solve_decision. Defined.

(** A well-formed upstream item. *)
Definition akita : pyval :=
  PDict [("breed"%string, PStr "Akita"); ("image"%string, PStr "akita-1")].

(** An upstream whose pages below [first_bad] hold one item and whose other
    pages never answer. *)
Definition upstream_down_from (first_bad : Z) (h : list Ingest.event) (page : Z)
  : Ingest.response :=
  if page <? first_bad
  then Ingest.Reply 200 (Some (PList [akita]))
  else Ingest.Raises.

(** An upstream whose pages hold one item, but for page [last], which is
    empty. *)
Definition upstream_empty_at (last : Z) (h : list Ingest.event) (page : Z)
  : Ingest.response :=
  if page =? last
  then Ingest.Reply 200 (Some (PList []))
  else Ingest.Reply 200 (Some (PList [akita])).

(** What is shown of the events of a loop over pages [a], [a+1], ...: a line
    that ends the run names a page of the loop, and no request in these
    events is for a later page. *)
Definition stops_in_order (a : Z) (ev : list Ingest.event) : Prop :=
  forall e p, e ∈ ev -> stop_at e = Some p ->
              a <= p /\ forall q, Ingest.Get q ∈ ev -> q <= p.

(** An event that is neither a request nor a line that ends a run. *)
Definition silent (e : Ingest.event) : Prop :=
  stop_at e = None /\ forall q, e <> Ingest.Get q.

(** A reply that carries at least one item. *)
Definition page_with_items (r : Ingest.response) : Prop :=
  exists item items, r = Ingest.Reply 200 (Some (PList (item :: items))).

(** Whether an event is the line that reports a stop at the page. *)
Definition reports_stop_at (page : Z) (e : Ingest.event) : bool :=
  match e with
  | Ingest.LogStopping _ p => p =? page
  | _ => false
  end.

(** A job dict as [add_job] builds them: a job that is not one-shot has an
    interval. *)
Definition well_formed {World : Type} (j : Scheduler.job World) : Prop :=
  Scheduler.run_once j = false -> is_Some (Scheduler.interval j).

(** A function that counts its calls in the world and returns. *)
Definition counting : Scheduler.callable nat :=
  Scheduler.mkCallable "refresh" (fun calls => Scheduler.Returned (S calls)).

(** A function that counts its calls in the world and raises. *)
Definition failing : Scheduler.callable nat :=
  Scheduler.mkCallable "refresh" (fun calls => Scheduler.Raised (S calls)).

(** ** The validator as the specification words it *)

(** A character that is the pattern character [p], or its capital when [p]
    is one of the letters a-z. *)
Definition eq_nocase (c p : ascii) : Prop :=
  c = p
  \/ ((97 <= PyStr.code p)%N /\ (PyStr.code p <= 122)%N
      /\ (PyStr.code c + 32 = PyStr.code p)%N).

(** Two strings of the same length, equal character by character up to
    case. *)
Fixpoint match_nocase (mid pat : string) : Prop :=
  match mid, pat with
  | EmptyString, EmptyString => True
  | String c mid', String p pat' => eq_nocase c p /\ match_nocase mid' pat'
  | _, _ => False
  end.

(** [s] contains [pat], case-insensitively. *)
Definition contains_nocase (s pat : string) : Prop :=
  exists pre mid post, s = pre +:+ mid +:+ post /\ match_nocase mid pat.

(** The inputs [normalize] rejects: not record-shaped; breed absent or not a
    string; breed empty after trimming; trimmed breed longer than 60; breed
    containing, case-insensitively, a URL scheme or an image-file
    extension. *)
Definition normalize_rejects (raw : pyval) : Prop :=
  match raw with
  | PDict d =>
      match Validator.dict_get d "breed" with
      | PStr b =>
          PyStr.strip b = EmptyString
          \/ (60 < String.length (PyStr.strip b))%nat
          \/ contains_nocase b "http://"
          \/ contains_nocase b "https://"
          \/ Exists (contains_nocase b) [".jpg"; ".jpeg"; ".png"; ".gif"; ".webp"]
      | _ => True
      end
  | _ => True
  end.

(** The image of the record: the trimmed image, and the empty string when the
    field is absent or not a string (trimming gives the empty string when
    nothing but whitespace is there). *)
Definition normalized_image (v : pyval) : string :=
  match v with
  | PStr i => PyStr.strip i
  | _ => EmptyString
  end.

(** A pattern character as those of the patterns in the code: below 128, not
    a capital, not whitespace. *)
Definition plain_char (p : ascii) : bool :=
  ((PyStr.code p <? 128)
   && negb ((65 <=? PyStr.code p) && (PyStr.code p <=? 90)))%N
  && negb (PyStr.is_space p).

Fixpoint plain_chars (pat : string) : bool :=
  match pat with
  | EmptyString => true
  | String p pat' => plain_char p && plain_chars pat'
  end.

Definition plain_pattern (pat : string) : bool :=
  negb (String.eqb pat EmptyString) && plain_chars pat.

Fixpoint no_space (s : string) : Prop :=
  match s with
  | EmptyString => True
  | String c s' => PyStr.is_space c = false /\ no_space s'
  end.

Fixpoint all_space (s : string) : Prop :=
  match s with
  | EmptyString => True
  | String c s' => PyStr.is_space c = true /\ all_space s'
  end.

(** The code points [str.lower] moves. *)
Definition is_capital (n : N) : Prop :=
  (65 <= n /\ n <= 90 \/ (192 <= n /\ n <= 222) /\ n <> 215)%N.

(** The code points [str.isspace] accepts. *)
Definition is_space_code (n : N) : Prop :=
  (9 <= n /\ n <= 13 \/ 28 <= n /\ n <= 32 \/ n = 133 \/ n = 160)%N.

(** ** A store with sixteen records *)

Definition sixteen_breeds : list string :=
  ["Akita"; "Beagle"; "Borzoi"; "Boxer"; "Collie"; "Corgi"; "Dingo"; "Husky";
   "Kelpie"; "Komondor"; "Maltese"; "Papillon"; "Poodle"; "Pug"; "Saluki";
   "Whippet"].

Definition sixteen_dogs : list dog :=
  map (fun b => {| breed := b; image := "img" |}) sixteen_breeds.

Definition kennel : gmap string DogCache.row :=
  snd (DogCache.add_dogs_batch 0 sixteen_dogs ∅).

From stdpp Require Import sorting.

Local Open Scope Z_scope.

(** ** The rest of [app.py]: bootstrap, refresh job, statistics *)

Module App.
Import Ingest.



Section Environment.

Variable upstream : list event -> Z -> response.
Variable clock : list event -> Z.

(** [quick_initial_fetch]; the lines it logs are left out. *)
Definition quick_initial_fetch : M unit :=
  total_dogs <- cache_size ;;
  if total_dogs =? 0 then
    dogs_added <- fetch_dogs_from_api upstream clock 1 (Some 5) ;;
    ret tt
  else ret tt.

(** [periodic_cache_refresh_job]; the lines it logs are left out, and the
    [change] it logs is what is given back here. *)
Definition periodic_cache_refresh_job : M Z :=
  dogs_before <- cache_size ;;
  fetch_dogs_from_api upstream clock 1 None ;;;
  dogs_after <- cache_size ;;
  let change := dogs_after - dogs_before in
  ret change.



End Environment.

End App.

(** ** Auxiliary definitions for the further properties *)

(** [all_dogs] of [get_dogs]: the records in the order of [sorted]. *)
Definition all_dogs (t : gmap string DogCache.row) : list dog :=
  map (fun item => {| breed := fst item; image := snd item |})
      (ReadApi.sorted_items (DogCache.snapshot t)).

(** The dict of a record, as [add_dogs_batch] and the JSON body hold it. *)
Definition dict_of (d : dog) : pyval :=
  PDict [("breed"%string, PStr (breed d)); ("image"%string, PStr (image d))].

(** The order of [sorted] on the items of the dict. *)
Definition item_le (a b : string * string) : Prop := ReadApi.item_leb a b = true.

(** Records in strictly increasing order of breed. *)
Definition breed_lt (a b : dog) : Prop :=
  String.compare (breed a) (breed b) = Lt.

(** The substrings that mark a corrupted breed. *)
Definition corrupt_patterns : list string :=
  ["http://"; "https://"]%string ++ Validator.bad_extensions.

(** A breed as the validator lets it through: not empty, at most 60
    characters, no whitespace at either end, and none of the marks of
    corruption in it, whatever the case. *)
Definition clean_breed (k : string) : Prop :=
  k <> EmptyString
  /\ (String.length k <= 60)%nat
  /\ PyStr.strip k = k
  /\ Forall (fun pat => ~ contains_nocase k pat) corrupt_patterns.

(** A string that does not start with whitespace. *)
Definition starts_clean (s : string) : Prop :=
  match s with
  | EmptyString => True
  | String c _ => PyStr.is_space c = false
  end.

(** The events a call of [fetch_with_retry] adds to the history. *)
Definition fetch_events (upstream : list Ingest.event -> Z -> Ingest.response)
           (page : Z) (s : Ingest.state) : list Ingest.event :=
  drop (length (Ingest.history s))
       (Ingest.history (snd (Ingest.fetch_with_retry upstream page s))).

(** A reply with status 200 and a JSON array. *)
Definition ok_reply (data : list pyval) : Ingest.response :=
  Ingest.Reply 200 (Some (PList data)).

(** The events [fetch_with_retry] produces: requests, pauses and its own
    lines of log. *)
Definition fetch_level (e : Ingest.event) : bool :=
  match e with
  | Ingest.Get _ | Ingest.Sleep _ | Ingest.LogFetching _ _
  | Ingest.LogFetched _ _ | Ingest.LogInvalidFormat _ | Ingest.LogStatus _ _
  | Ingest.LogError _ | Ingest.LogFailed _ => true
  | _ => false
  end.

(** The number of records of the batches a history reports as processed. *)
Fixpoint processed (ev : list Ingest.event) : Z :=
  match ev with
  | [] => 0
  | Ingest.LogProcessed _ validated _ :: ev' => validated + processed ev'
  | _ :: ev' => processed ev'
  end.

(** The bound the parameters of a run put on the pages it may ask for. *)
Definition in_run_range (start_page : Z) (max_pages : option Z) (q : Z) : Prop :=
  start_page <= q <= MAX_EXTERNAL_PAGES
  /\ match max_pages with
     | Some n => n = 0 \/ q < start_page + n
     | None => True
     end.

(** The events that took the process from state [s] to state [s']. *)
Definition events_since (s s' : Ingest.state) : list Ingest.event :=
  drop (length (Ingest.history s)) (Ingest.history s').

(** The names in the lines that report the start of a one-shot job. *)
Definition once_names (out : list Scheduler.msg) : list string :=
  omap (fun m => match m with
                 | Scheduler.RunningOnce n => Some n
                 | _ => None
                 end) out.

(** The one-shot jobs of a list, in order. *)
Fixpoint one_shots {World : Type} (jobs : list (Scheduler.job World))
  : list (Scheduler.job World) :=
  match jobs with
  | [] => []
  | j :: jobs' =>
      if Scheduler.run_once j then j :: one_shots jobs' else one_shots jobs'
  end.

(** The recurring jobs of a list, in order. *)
Fixpoint recurring {World : Type} (jobs : list (Scheduler.job World))
  : list (Scheduler.job World) :=
  match jobs with
  | [] => []
  | j :: jobs' =>
      if Scheduler.run_once j then recurring jobs' else j :: recurring jobs'
  end.

(** A job after a pass at clock reading [t]: as it was, or with [last_run]
    set to [t]. *)
Definition after_pass {World : Type} (t : Z) (j j' : Scheduler.job World) : Prop :=
  j' = j \/ j' = Scheduler.set_last_run j t.

(** The arguments of one call of [add_job]. *)
Definition registration (World : Type) : Type :=
  (Scheduler.callable World * option Z * option string)%type.

(** The list [self.jobs] after a series of calls of [add_job] on a new
    scheduler. *)
Definition register_all {World : Type} (calls : list (registration World))
  : list (Scheduler.job World) :=
  fold_left (fun jobs c => Scheduler.add_job jobs (fst (fst c)) (snd (fst c)) (snd c))
            calls [].



(** An upstream whose replies do not depend on what happened before. *)
Definition steady (upstream : list Ingest.event -> Z -> Ingest.response) : Prop :=
  forall h h' page, upstream h page = upstream h' page.
(** * Properties *)

(** ** Durable store *)

Section StoreFacts.
Import DogCache.

Implicit Types (t : gmap string row) (dogs : list dog) (now : Z).

Lemma fold_insert_or_replace now dogs (acc : Z * gmap string row) :
  fold_left (insert_or_replace now) dogs acc
  = (fst acc + Z.of_nat (length dogs),
     snd (fold_left (insert_or_replace now) dogs (0, snd acc))).
Proof.
  revert acc. induction dogs as [|d dogs IH]; intros acc.
  - destruct acc. simpl. f_equal. lia.
  - cbn [fold_left length].
    rewrite (IH (insert_or_replace now acc d)).
    rewrite (IH (insert_or_replace now (0, snd acc) d)).
    simpl. f_equal. lia.
Qed.

Lemma executemany_rowcount now dogs t :
  fst (executemany now dogs t) = Z.of_nat (length dogs).
Proof. unfold executemany. rewrite fold_insert_or_replace. simpl. lia. Qed.

Lemma executemany_snapshot now dogs t :
  snapshot (snd (executemany now dogs t)) = upsert_images (snapshot t) dogs.
Proof.
  unfold executemany, upsert_images, snapshot, get_all_dogs_dict.
  cbn [fst]. generalize 0. revert t.
  induction dogs as [|d dogs IH]; intros t n; [done|].
  cbn [fold_left]. unfold insert_or_replace at 2. cbn [fst snd].
  rewrite IH. by rewrite fmap_insert.
Qed.

Lemma add_dogs_batch_snapshot now dogs t :
  snapshot (snd (add_dogs_batch now dogs t)) = upsert_images (snapshot t) dogs.
Proof.
  destruct dogs as [|d dogs]; [done|].
  apply (executemany_snapshot now (d :: dogs) t).
Qed.

Lemma upsert_images_lookup dogs (m : gmap string string) k :
  upsert_images m dogs !! k
  = match last_image k dogs with
    | Some v => Some v
    | None => m !! k
    end.
Proof.
  revert m. induction dogs as [|d dogs IH]; intros m; simpl; [done|].
  unfold upsert_images in *. simpl. rewrite IH.
  destruct (last_image k dogs) as [v|]; [done|].
  destruct (decide (breed d = k)) as [->|Hne].
  - by rewrite lookup_insert_eq.
  - by rewrite lookup_insert_ne.
Qed.

Lemma upsert_images_twice dogs (m : gmap string string) :
  upsert_images (upsert_images m dogs) dogs = upsert_images m dogs.
Proof.
  apply map_eq. intros k. rewrite !upsert_images_lookup.
  by destruct (last_image k dogs).
Qed.

Lemma upsert_images_keeps_keys dogs (m : gmap string string) :
  dom m ⊆ dom (upsert_images m dogs).
Proof.
  intros k. rewrite !elem_of_dom, upsert_images_lookup.
  destruct (last_image k dogs); eauto.
Qed.

(** C7. Batch upsert is idempotent and last-write-wins on the key-to-value
    snapshot: whatever the table and the clock readings, applying a batch a
    second time leaves the snapshot as the first application left it; and
    a batch holding [{k, "a"}] followed by a batch holding [{k, "b"}] leaves
    ["b"] under [k]. *)
Theorem upsert_idempotent_last_write_wins :
  (forall now1 now2 dogs t,
      snapshot (snd (add_dogs_batch now2 dogs (snd (add_dogs_batch now1 dogs t))))
      = snapshot (snd (add_dogs_batch now1 dogs t)))
  /\ (forall now1 now2 k t,
         snapshot (snd (add_dogs_batch now2 [mkDog k "b"]
                          (snd (add_dogs_batch now1 [mkDog k "a"] t)))) !! k
         = Some "b"%string).
Proof.
  split.
  - intros now1 now2 dogs t.
    rewrite !add_dogs_batch_snapshot. apply upsert_images_twice.
  - intros now1 now2 k t.
    rewrite !add_dogs_batch_snapshot, upsert_images_lookup. simpl.
    by rewrite decide_True.
Qed.

(** C9. No store operation removes a key: the keys of the snapshot before
    [add_dogs_batch] are keys of the snapshot after it, [get_all_dogs_dict]
    leaves the table as it found it, and so does [init_db] on a file that
    holds the table. *)
Theorem store_never_removes_keys :
  (forall now dogs t,
      dom (snapshot t) ⊆ dom (snapshot (snd (add_dogs_batch now dogs t))))
  /\ (forall t, snd (get_all_dogs_dict t) = t)
  /\ (forall t, init_db (Some t) = t).
Proof.
  repeat split.
  intros now dogs t. rewrite add_dogs_batch_snapshot.
  apply upsert_images_keeps_keys.
Qed.

(** C10. [add_dogs_batch] returns the length of the batch whatever the table
    holds, also when every row of the batch is already stored with the same
    image; for the empty batch it returns 0 and the table is the one given. *)
Theorem add_dogs_batch_counts_batch_length :
  (forall now dogs t,
      fst (add_dogs_batch now dogs t) = Z.of_nat (length dogs))
  /\ (forall now d t,
         snapshot t !! breed d = Some (image d) ->
         snapshot (snd (add_dogs_batch now [d] t)) = snapshot t
         /\ fst (add_dogs_batch now [d] t) = 1)
  /\ (forall now t, add_dogs_batch now [] t = (0, t)).
Proof.
  split; [|split].
  - intros now [|d dogs] t; [done|].
    apply (executemany_rowcount now (d :: dogs) t).
  - intros now d t Hk. split; [|done].
    rewrite add_dogs_batch_snapshot. unfold upsert_images. simpl.
    by apply insert_id.
  - done.
Qed.

(** A stored row upserted again with its own image: the count is 1 although
    the snapshot does not change. *)
Lemma add_dogs_batch_counts_batch_length_witness :
  snapshot ({[ "akita"%string := mkRow "a.jpg" 0 0 ]} : gmap string row)
    !! "akita"%string = Some "a.jpg"%string
  /\ snapshot (snd (add_dogs_batch 7 [mkDog "akita" "a.jpg"]
                      {[ "akita"%string := mkRow "a.jpg" 0 0 ]}))
     = snapshot {[ "akita"%string := mkRow "a.jpg" 0 0 ]}
  /\ fst (add_dogs_batch 7 [mkDog "akita" "a.jpg"]
            {[ "akita"%string := mkRow "a.jpg" 0 0 ]}) = 1.
Proof.
  split; [reflexivity|].
  apply (proj1 (proj2 add_dogs_batch_counts_batch_length) 7
               (mkDog "akita" "a.jpg")
               {[ "akita"%string := mkRow "a.jpg" 0 0 ]}).
  reflexivity.
Defined.

End StoreFacts.

(** ** Fetch client *)

Section FetchFacts.
Import Ingest.

Variable upstream : list event -> Z -> response.

Lemma extend_extend s ev1 ev2 : extend (extend s ev1) ev2 = extend s (ev1 ++ ev2).
Proof. unfold extend. simpl. by rewrite <- app_assoc. Qed.

Lemma extend_nil s : extend s [] = s.
Proof. destruct s. unfold extend. simpl. by rewrite app_nil_r. Qed.

Lemma emit_extend e s : emit e s = (tt, extend s [e]).
Proof. reflexivity. Qed.

(** A failed attempt logs the attempt, sends one request, logs the reason
    and gives nothing back. *)
Lemma attempt_once_failed page attempt s :
  failed_attempt (upstream (history s ++ [LogFetching page attempt]) page) ->
  exists e,
    is_io e = false
    /\ (forall p n, e <> LogFetched p n)
    /\ attempt_once upstream page attempt s
       = (None, extend s [LogFetching page attempt; Get page; e]).
Proof.
  intros Hfail. unfold attempt_once, bind, http_get.
  rewrite emit_extend. cbn [history extend db last_fetch_time].
  destruct (upstream (history s ++ [LogFetching page attempt]) page)
    as [|code body].
  - exists (LogError page). repeat split; [done|].
    rewrite emit_extend. unfold ret, extend. simpl. by rewrite <- !app_assoc.
  - destruct (code =? 200) eqn:Hcode.
    + destruct Hfail as [Hne|Hbody]; [lia|].
      destruct body as [[]|].
      8: { exists (LogError page). repeat split; [done|].
           rewrite emit_extend. unfold ret, extend. simpl.
           by rewrite <- !app_assoc. }
      6: by destruct (Hbody l).
      all: exists (LogInvalidFormat page); repeat split; [done|];
        rewrite emit_extend; unfold ret, extend; simpl;
        by rewrite <- !app_assoc.
    + exists (LogStatus code page). repeat split; [done|].
      rewrite emit_extend. unfold ret, extend. simpl. by rewrite <- !app_assoc.
Qed.

Lemma retry_loop_failed_step page attempt rest s :
  (forall h, failed_attempt (upstream h page)) ->
  exists e,
    is_io e = false
    /\ (forall p n, e <> LogFetched p n)
    /\ retry_loop upstream page (attempt :: rest) s
       = retry_loop upstream page rest
           (extend s ([LogFetching page attempt; Get page; e]
                      ++ pause_after attempt)).
Proof.
  intros Hfail.
  destruct (attempt_once_failed page attempt s (Hfail _)) as (e & Hio & Hlog & He).
  exists e. split; [done|]. split; [done|].
  cbn [retry_loop]. unfold bind at 1. rewrite He.
  unfold bind, pause_after. destruct (attempt <? MAX_RETRIES).
  - rewrite emit_extend, extend_extend. reflexivity.
  - unfold ret. by rewrite app_nil_r.
Qed.

(** Three failed attempts in full: the events [fetch_with_retry] adds. *)
Lemma fetch_with_retry_failed page s :
  (forall h, failed_attempt (upstream h page)) ->
  exists e1 e2 e3,
    (is_io e1 = false /\ is_io e2 = false /\ is_io e3 = false)
    /\ fetch_with_retry upstream page s
       = (None,
          extend s [LogFetching page 1; Get page; e1; Sleep 1;
                    LogFetching page 2; Get page; e2; Sleep 2;
                    LogFetching page 3; Get page; e3; LogFailed page]).
Proof.
  intros Hfail. unfold fetch_with_retry.
  change (py_range 1 (MAX_RETRIES + 1)) with [1; 2; 3].
  destruct (retry_loop_failed_step page 1 [2; 3] s Hfail) as (e1 & H1 & _ & ->).
  change (pause_after 1) with [Sleep 1].
  destruct (retry_loop_failed_step page 2 [3]
              (extend s ([LogFetching page 1; Get page; e1] ++ [Sleep 1])) Hfail)
    as (e2 & H2 & _ & ->).
  change (pause_after 2) with [Sleep 2].
  destruct (retry_loop_failed_step page 3 []
              (extend (extend s ([LogFetching page 1; Get page; e1] ++ [Sleep 1]))
                      ([LogFetching page 2; Get page; e2] ++ [Sleep 2])) Hfail)
    as (e3 & H3 & _ & ->).
  change (pause_after 3) with (@nil event).
  exists e1, e2, e3. split; [done|].
  cbn [retry_loop]. unfold bind, ret. by rewrite emit_extend, !extend_extend.
Qed.

(** C4. When every attempt for a page fails, [fetch_with_retry] gives
    [None] after exactly three requests for that page, with a pause of 1
    second after the first and of 2 seconds after the second, and no
    request after the third; the store is not touched. *)
Theorem fetch_with_retry_three_attempts page s :
  (forall h, failed_attempt (upstream h page)) ->
  fst (fetch_with_retry upstream page s) = None
  /\ filter is_io (history (snd (fetch_with_retry upstream page s)))
     = filter is_io (history s)
       ++ [Get page; Sleep 1; Get page; Sleep 2; Get page]
  /\ db (snd (fetch_with_retry upstream page s)) = db s.
Proof.
  intros Hfail.
  destruct (fetch_with_retry_failed page s Hfail)
    as (e1 & e2 & e3 & (H1 & H2 & H3) & ->).
  cbn [fst snd extend history db].
  split; [done|]. split; [|done].
  rewrite filter_app. f_equal.
  rewrite !filter_cons. cbn [is_io]. by rewrite H1, H2, H3.
Qed.

(** The first attempt succeeds. *)
Lemma fetch_with_retry_ok page data s :
  upstream (history s ++ [LogFetching page 1]) page
  = Reply 200 (Some (PList data)) ->
  fetch_with_retry upstream page s
  = (Some data,
     extend s [LogFetching page 1; Get page;
               LogFetched page (Z.of_nat (length data))]).
Proof.
  intros Hok. unfold fetch_with_retry.
  change (py_range 1 (MAX_RETRIES + 1)) with [1; 2; 3].
  cbn [retry_loop]. unfold bind, attempt_once, bind, http_get.
  rewrite emit_extend. cbn [history extend db last_fetch_time].
  rewrite Hok. cbn. unfold extend. cbn. by rewrite <- !app_assoc.
Qed.

(** The events of one attempt, whatever the reply. *)
Lemma attempt_once_events page attempt s :
  exists x,
    snd (attempt_once upstream page attempt s)
    = extend s [LogFetching page attempt; Get page; x]
    /\ (forall q, x <> Get q)
    /\ match fst (attempt_once upstream page attempt s) with
       | Some data => x = LogFetched page (Z.of_nat (length data))
       | None => stop_at x = None
       end.
Proof.
  unfold attempt_once, bind, http_get.
  rewrite emit_extend. cbn [history extend db last_fetch_time].
  assert (Hext : forall x,
             extend (mkState ((history s ++ [LogFetching page attempt])
                                ++ [Get page]) (db s) (last_fetch_time s)) [x]
             = extend s [LogFetching page attempt; Get page; x]).
  { intros x. unfold extend. simpl. by rewrite <- !app_assoc. }
  destruct (upstream (history s ++ [LogFetching page attempt]) page)
    as [|code body].
  - exists (LogError page). rewrite emit_extend, Hext. by cbn.
  - destruct (code =? 200).
    + destruct body as [[]|];
        try (exists (LogInvalidFormat page); rewrite emit_extend, Hext; by cbn).
      * eexists. rewrite emit_extend, Hext. by cbn.
      * exists (LogError page). rewrite emit_extend, Hext. by cbn.
    + exists (LogStatus code page). rewrite emit_extend, Hext. by cbn.
Qed.

(** The events of [fetch_with_retry]: every request is for the page asked,
    and a line that ends a run is there only if the page came back empty. *)
Lemma retry_loop_events page attempts s :
  exists ev,
    snd (retry_loop upstream page attempts s) = extend s ev
    /\ (forall q, Get q ∈ ev -> q = page)
    /\ (forall e p, e ∈ ev -> stop_at e = Some p ->
                    p = page
                    /\ fst (retry_loop upstream page attempts s) = Some []).
Proof.
  revert s. induction attempts as [|attempt rest IH]; intros s.
  - exists [LogFailed page]. cbn [retry_loop]. unfold bind.
    rewrite emit_extend. cbn. split; [done|].
    split; intros *; rewrite list_elem_of_singleton; [done|].
    by intros ->.
  - destruct (attempt_once_events page attempt s) as (x & Hs & Hx & Hr).
    cbn [retry_loop]. unfold bind.
    destruct (attempt_once upstream page attempt s) as [r s1].
    cbn [fst snd] in Hs, Hr. subst s1.
    destruct r as [data|].
    + subst x. eexists. cbn. split; [done|].
      split; intros *; rewrite !elem_of_cons, elem_of_nil.
      * intros [?|[?|[?|[]]]]; congruence.
      * intros [->|[->|[->|[]]]]; cbn; try done.
        destruct data; [|done]. cbn. by intros [= <-].
    + assert (Hpause : exists pause,
                 (forall s0, (if attempt <? MAX_RETRIES
                              then emit (Sleep (RETRY_DELAY * 2 ^ (attempt - 1)))
                              else ret tt) s0 = (tt, extend s0 pause))
                 /\ (forall e, e ∈ pause ->
                               stop_at e = None /\ forall q, e <> Get q)).
      { destruct (attempt <? MAX_RETRIES).
        - eexists [_]. split; [done|].
          intros e. rewrite list_elem_of_singleton. by intros ->.
        - exists []. split; [|by intros e Hin; apply elem_of_nil in Hin].
          intros s0. unfold ret. by rewrite extend_nil. }
      destruct Hpause as (pause & Hp & Hquiet).
      rewrite Hp, extend_extend.
      destruct (IH (extend s ([LogFetching page attempt; Get page; x] ++ pause)))
        as (ev & Hev & Hget & Hstop).
      exists (([LogFetching page attempt; Get page; x] ++ pause) ++ ev).
      rewrite Hev, extend_extend. split; [done|].
      split; intros *; rewrite !elem_of_app, !elem_of_cons, elem_of_nil.
      * intros [[[?|[?|[?|[]]]]|Hin]|Hin]; try done.
        -- congruence.
        -- by subst; destruct (Hx q).
        -- by destruct (proj2 (Hquiet _ Hin) q).
        -- by apply Hget.
      * intros [[[->|[->|[->|[]]]]|Hin]|Hin] Hst; try done.
        -- congruence.
        -- destruct (Hquiet _ Hin) as [Hq _]. congruence.
        -- by apply (Hstop e).
Qed.

End FetchFacts.

(** ** Ingestion run *)

Section RunFacts.
Import Ingest.

Variable upstream : list event -> Z -> response.
Variable clock : list event -> Z.

Lemma fetch_with_retry_events page s :
  exists ev,
    snd (fetch_with_retry upstream page s) = extend s ev
    /\ (forall q, Get q ∈ ev -> q = page)
    /\ (forall e p, e ∈ ev -> stop_at e = Some p ->
                    p = page /\ fst (fetch_with_retry upstream page s) = Some []).
Proof. apply retry_loop_events. Qed.

(** The loop goes on after the page: the events of the page, some silent
    lines, then the events of the later pages. *)
Lemma stops_in_order_continue a evf mid evr :
  (forall q, Get q ∈ evf -> q = a) ->
  (forall e p, e ∈ evf -> stop_at e = Some p -> False) ->
  (forall e, e ∈ mid -> silent e) ->
  stops_in_order (a + 1) evr ->
  stops_in_order a (evf ++ mid ++ evr).
Proof.
  intros Hget Hquiet Hmid Hrest e p Hin Hstop.
  rewrite !elem_of_app in Hin. destruct Hin as [Hin|[Hin|Hin]].
  - destruct (Hquiet e p Hin Hstop).
  - destruct (Hmid e Hin) as [Hnone _]. congruence.
  - destruct (Hrest e p Hin Hstop) as [Hle Hreq]. split; [lia|].
    intros q. rewrite !elem_of_app. intros [Hq|[Hq|Hq]].
    + apply Hget in Hq. lia.
    + destruct (Hmid _ Hq) as [_ Hne]. by destruct (Hne q).
    + by apply Hreq.
Qed.

(** The loop is left at the page: the events of the page, then lines that
    are no request and name no other page. *)
Lemma stops_in_order_leave a evf final :
  (forall q, Get q ∈ evf -> q = a) ->
  (forall e p, e ∈ evf -> stop_at e = Some p -> p = a) ->
  (forall e, e ∈ final ->
             (forall q, e <> Get q) /\ forall p, stop_at e = Some p -> p = a) ->
  stops_in_order a (evf ++ final).
Proof.
  intros Hget Hstop Hfinal e p Hin He.
  assert (p = a) as ->.
  { rewrite elem_of_app in Hin. destruct Hin as [Hin|Hin].
    - by apply (Hstop e).
    - by apply (Hfinal e Hin). }
  split; [lia|]. intros q. rewrite elem_of_app. intros [Hq|Hq].
  - apply Hget in Hq. lia.
  - destruct (Hfinal _ Hq) as [Hne _]. by destruct (Hne q).
Qed.

Lemma pages_loop_events n a consecutive_failures total_fetched s :
  exists ev,
    history (snd (pages_loop upstream clock (seqZ a (Z.of_nat n))
                    consecutive_failures total_fetched s))
    = history s ++ ev
    /\ stops_in_order a ev.
Proof.
  revert a consecutive_failures total_fetched s.
  induction n as [|n IH]; intros a cf total s.
  - exists []. cbn. split; [by rewrite app_nil_r|].
    intros e p Hin. by apply elem_of_nil in Hin.
  - rewrite seqZ_cons by lia.
    replace (Z.pred (Z.of_nat (S n))) with (Z.of_nat n) by lia.
    replace (Z.succ a) with (a + 1) by lia.
    cbn [pages_loop]. unfold bind at 1.
    destruct (fetch_with_retry_events a s) as (evf & Hs1 & Hget & Hstop).
    destruct (fetch_with_retry upstream a s) as [r s1].
    cbn [fst snd] in Hs1, Hstop. subst s1.
    destruct r as [[|d data]|].
    + (* an empty page *)
      exists (evf ++ [LogEmptyPage a]). cbn. split; [by rewrite app_assoc|].
      apply stops_in_order_leave; [done|by intros; eapply Hstop|].
      intros e. rewrite list_elem_of_singleton. by intros ->.
    + (* a page with items *)
      assert (Hquiet : forall e p, e ∈ evf -> stop_at e = Some p -> False).
      { intros e p Hin He. by destruct (Hstop e p Hin He) as [_ ?]. }
      destruct (Z.of_nat (length (d :: data)) =? 0) eqn:Hlen;
        [by cbn in Hlen|].
      destruct (validate_all (d :: data)) as [|v vs].
      * destruct (IH (a + 1) 0 total (extend s evf)) as (evr & Hh & Hord).
        exists (evf ++ [] ++ evr).
        split; [rewrite Hh; cbn; by rewrite app_assoc|].
        apply stops_in_order_continue; try done.
        intros e Hin. by apply elem_of_nil in Hin.
      * unfold bind, add_dogs_batch.
        destruct (DogCache.add_dogs_batch (clock (history (extend s evf)))
                    (v :: vs) (db (extend s evf))) as [added t].
        rewrite emit_extend.
        match goal with
        | |- context [pages_loop _ _ _ _ _ ?s2] =>
            destruct (IH (a + 1) 0 (total + added) s2) as (evr & Hh & Hord)
        end.
        eexists (evf ++ [_] ++ evr).
        split; [rewrite Hh; cbn; by rewrite <- !app_assoc|].
        apply stops_in_order_continue; try done.
        intros e. rewrite list_elem_of_singleton. by intros ->.
    + (* a failed page *)
      assert (Hquiet : forall e p, e ∈ evf -> stop_at e = Some p -> False).
      { intros e p Hin He. by destruct (Hstop e p Hin He) as [_ ?]. }
      unfold bind. rewrite emit_extend, extend_extend.
      destruct (10 <=? cf + 1).
      * rewrite emit_extend, extend_extend. cbn.
        exists (evf ++ [LogSkipping a (cf + 1); LogStopping (cf + 1) a]).
        split; [by rewrite <- ?app_assoc|].
        apply stops_in_order_leave; [done|by intros; exfalso; eauto|].
        intros e. rewrite !elem_of_cons, elem_of_nil.
        intros [->|[->|[]]]; split; try done. cbn. by intros p [= <-].
      * destruct (IH (a + 1) (cf + 1) total
                    (extend s (evf ++ [LogSkipping a (cf + 1)])))
          as (evr & Hh & Hord).
        exists (evf ++ [LogSkipping a (cf + 1)] ++ evr).
        split; [rewrite Hh; cbn; by rewrite <- !app_assoc|].
        apply stops_in_order_continue; try done.
        intros e. rewrite list_elem_of_singleton. by intros ->.
Qed.

(** The two lines around the loop are silent. *)
Lemma stops_in_order_continue_plan a ev e1 e2 :
  stops_in_order a ev ->
  silent e1 -> silent e2 ->
  stops_in_order a ([e1] ++ ev ++ [e2]).
Proof.
  intros Hord [H1 G1] [H2 G2] e p Hin Hstop.
  assert (Hmem : forall x, x ∈ [e1] ++ ev ++ [e2] -> x = e1 \/ x ∈ ev \/ x = e2).
  { intros x. rewrite !elem_of_app, !list_elem_of_singleton. tauto. }
  apply Hmem in Hin. destruct Hin as [->|[Hin| ->]]; [congruence| |congruence].
  destruct (Hord e p Hin Hstop) as [Hle Hreq]. split; [done|].
  intros q Hq. apply Hmem in Hq. destruct Hq as [Hq|[Hq|Hq]].
  - by destruct (G1 q).
  - by apply Hreq.
  - by destruct (G2 q).
Qed.

Lemma seqZ_to_nat a len : seqZ a len = seqZ a (Z.of_nat (Z.to_nat len)).
Proof. unfold seqZ. by rewrite Nat2Z.id. Qed.

(** The history after a run is the history before it followed by the events
    of the run, and these stop in order. *)
Lemma run_events_in_order start_page max_pages s :
  history (snd (fetch_dogs_from_api upstream clock start_page max_pages s))
  = history s ++ run_events upstream clock start_page max_pages s
  /\ stops_in_order start_page
       (run_events upstream clock start_page max_pages s)
  /\ exists ev total_fetched total_in_cache,
      run_events upstream clock start_page max_pages s
      = [LogPlan start_page max_pages] ++ ev
        ++ [LogComplete total_fetched total_in_cache]
      /\ history (snd (pages_loop upstream clock
                         (py_range start_page (end_page start_page max_pages))
                         0 0 (extend s [LogPlan start_page max_pages])))
         = history (extend s [LogPlan start_page max_pages]) ++ ev.
Proof.
  unfold run_events, fetch_dogs_from_api, bind.
  rewrite emit_extend. unfold py_range. rewrite seqZ_to_nat.
  destruct (pages_loop_events
              (Z.to_nat (end_page start_page max_pages - start_page))
              start_page 0 0 (extend s [LogPlan start_page max_pages]))
    as (ev & Hh & Hord).
  destruct (pages_loop upstream clock _ 0 0 _) as [total s1].
  cbn [fst snd] in Hh. cbn.
  rewrite Hh. cbn. rewrite <- !app_assoc, drop_app_length.
  split; [done|]. split.
  2: { eexists ev, _, _. split; [done|]. by rewrite <- app_assoc. }
  by apply (stops_in_order_continue_plan start_page ev).
Qed.

Lemma requested_elem q ev : q ∈ requested ev <-> Get q ∈ ev.
Proof.
  unfold requested. rewrite list_elem_of_omap. split.
  - intros (e & Hin & He). destruct e; try done. by injection He as ->.
  - intros Hin. by exists (Get q).
Qed.

Lemma stops_in_order_requested a ev e p :
  stops_in_order a ev -> e ∈ ev -> stop_at e = Some p ->
  Forall (fun q => q <= p) (requested ev).
Proof.
  intros Hord Hin Hstop. apply Forall_forall. intros q Hq.
  apply requested_elem in Hq. by apply (Hord e p Hin Hstop).
Qed.

(** C6. In every run, once a page has been fetched with no item in it, no
    later page is requested: every request of the run is for that page or
    an earlier one. *)
Theorem empty_page_ends_run start_page max_pages s p :
  LogFetched p 0 ∈ run_events upstream clock start_page max_pages s ->
  Forall (fun q => q <= p)
         (requested (run_events upstream clock start_page max_pages s)).
Proof.
  intros Hin.
  destruct (run_events_in_order start_page max_pages s) as (_ & Hord & _).
  by apply (stops_in_order_requested start_page _ (LogFetched p 0) p).
Qed.

(** One turn of the loop over pages, by the outcome of the fetch. *)
Lemma pages_loop_step page rest consecutive_failures total_fetched s :
  pages_loop upstream clock (page :: rest) consecutive_failures total_fetched s
  = match fetch_with_retry upstream page s with
    | (None, s1) =>
        if 10 <=? consecutive_failures + 1 then
          (total_fetched,
           extend s1 [LogSkipping page (consecutive_failures + 1);
                      LogStopping (consecutive_failures + 1) page])
        else
          pages_loop upstream clock rest (consecutive_failures + 1)
            total_fetched
            (extend s1 [LogSkipping page (consecutive_failures + 1)])
    | (Some [], s1) => (total_fetched, extend s1 [LogEmptyPage page])
    | (Some data, s1) =>
        match validate_all data with
        | [] => pages_loop upstream clock rest 0 total_fetched s1
        | dogs =>
            let (added_count, t) :=
              DogCache.add_dogs_batch (clock (history s1)) dogs (db s1) in
            pages_loop upstream clock rest 0 (total_fetched + added_count)
              (mkState (history s1
                        ++ [LogProcessed page (Z.of_nat (length dogs))
                              (Z.of_nat (length data))])
                       t (last_fetch_time s1))
        end
    end.
Proof.
  cbn [pages_loop]. unfold bind at 1.
  destruct (fetch_with_retry upstream page s) as [[[|d data]|] s1].
  - reflexivity.
  - destruct (Z.of_nat (length (d :: data)) =? 0) eqn:Hlen; [by cbn in Hlen|].
    destruct (validate_all (d :: data)) as [|v vs]; [done|].
    unfold bind, add_dogs_batch.
    match goal with
    | |- context [DogCache.add_dogs_batch ?n ?d ?t0] =>
        by destruct (DogCache.add_dogs_batch n d t0)
    end.
  - unfold bind. rewrite emit_extend.
    destruct (10 <=? consecutive_failures + 1); [|done].
    by rewrite emit_extend, extend_extend.
Qed.

(** Pages that come back with items are gone through one by one, and the
    count of failures in a row stays at 0. *)
Lemma pages_loop_good_prefix k a rest total_fetched s :
  (forall h p, a <= p < a + Z.of_nat k -> page_with_items (upstream h p)) ->
  exists total' s' ev,
    pages_loop upstream clock (seqZ a (Z.of_nat k) ++ rest) 0 total_fetched s
    = pages_loop upstream clock rest 0 total' s'
    /\ history s' = history s ++ ev.
Proof.
  revert a total_fetched s. induction k as [|k IH]; intros a total s Hgood.
  - exists total, s, []. cbn. by rewrite app_nil_r.
  - rewrite seqZ_cons by lia.
    replace (Z.pred (Z.of_nat (S k))) with (Z.of_nat k) by lia.
    replace (Z.succ a) with (a + 1) by lia.
    cbn [app]. rewrite pages_loop_step.
    destruct (Hgood (history s ++ [LogFetching a 1]) a) as (item & items & Hr);
      [lia|].
    rewrite (fetch_with_retry_ok upstream a (item :: items) s Hr).
    assert (Hnext : forall h p, a + 1 <= p < a + 1 + Z.of_nat k ->
                                page_with_items (upstream h p)).
    { intros h p Hp. apply Hgood. lia. }
    cbn iota.
    destruct (validate_all (item :: items)) as [|v vs]; cbn beta iota zeta;
      [|match goal with
        | |- context [DogCache.add_dogs_batch ?n ?d ?t0] =>
            destruct (DogCache.add_dogs_batch n d t0) as [added t]
        end].
    + match goal with
      | |- context [pages_loop _ _ (_ ++ _) 0 ?t0 (extend s ?evs)] =>
          destruct (IH (a + 1) t0 (extend s evs) Hnext)
            as (total' & s' & ev & -> & Hh);
          exists total', s', (evs ++ ev)
      end.
      split; [done|]. rewrite Hh. cbn [history extend].
      by rewrite <- app_assoc.
    + match goal with
      | |- context [pages_loop _ _ (_ ++ _) 0 ?t0
                      (mkState (history (extend s ?evs) ++ ?more) ?t1 ?l1)] =>
          destruct (IH (a + 1) t0
                      (mkState (history (extend s evs) ++ more) t1 l1) Hnext)
            as (total' & s' & ev & -> & Hh);
          exists total', s', (evs ++ more ++ ev)
      end.
      split; [done|]. rewrite Hh. cbn [history extend].
      by rewrite <- !app_assoc.
Qed.

(** Failures in a row that bring the count to 10 end the loop at the last
    of them. *)
Lemma pages_loop_bad_streak j a rest consecutive_failures total_fetched s :
  (forall h p, a <= p < a + Z.of_nat (S j) -> failed_attempt (upstream h p)) ->
  consecutive_failures + Z.of_nat (S j) = 10 ->
  exists s' ev,
    pages_loop upstream clock (seqZ a (Z.of_nat (S j)) ++ rest)
      consecutive_failures total_fetched s
    = (total_fetched, s')
    /\ history s' = history s ++ ev
    /\ LogStopping 10 (a + Z.of_nat j) ∈ ev.
Proof.
  revert a consecutive_failures s.
  induction j as [|j IH]; intros a cf s Hbad Hcount.
  - rewrite seqZ_cons by lia. rewrite seqZ_nil by lia.
    cbn [app]. rewrite pages_loop_step.
    destruct (fetch_with_retry_failed upstream a s)
      as (e1 & e2 & e3 & _ & ->); [intros h; apply Hbad; lia|].
    replace (cf + 1) with 10 by lia. cbn [Z.leb Z.compare Pos.compare].
    rewrite extend_extend.
    match goal with
    | |- context [extend s ?evs] => exists (extend s evs), evs
    end.
    split; [done|]. split; [done|].
    replace (a + Z.of_nat 0) with a by lia.
    rewrite elem_of_app, !elem_of_cons. tauto.
  - rewrite seqZ_cons by lia.
    replace (Z.pred (Z.of_nat (S (S j)))) with (Z.of_nat (S j)) by lia.
    replace (Z.succ a) with (a + 1) by lia.
    cbn [app]. rewrite pages_loop_step.
    destruct (fetch_with_retry_failed upstream a s)
      as (e1 & e2 & e3 & _ & ->); [intros h; apply Hbad; lia|].
    destruct (10 <=? cf + 1) eqn:Hle; [lia|].
    rewrite extend_extend.
    match goal with
    | |- context [pages_loop _ _ _ _ _ (extend s ?evs)] =>
        destruct (IH (a + 1) (cf + 1) (extend s evs))
          as (s' & ev & -> & Hh & Hin);
        [intros h p Hp; apply Hbad; lia|lia|];
        exists s', (evs ++ ev)
    end.
    split; [done|].
    split; [rewrite Hh; cbn [history extend]; by rewrite <- app_assoc|].
    rewrite elem_of_app. right.
    by replace (a + Z.of_nat (S j)) with (a + 1 + Z.of_nat j) by lia.
Qed.

(** C5 (amended). A failed page adds one to the count of failures in a
    row; when the count reaches 10 the loop is left at that page, and below
    10 the page is skipped and the loop goes on with the next one; a page
    that comes back with items puts the count back to 0.  In every run, no
    request follows for a page after the one named by the line that reports
    the stop.  In particular, when the pages before [first_bad] come back
    with items and the ten pages from [first_bad] on fail, a full run from
    page 1 stops at page [first_bad + 9], the tenth failed page: from page
    3 on, at page 12. *)
Theorem failure_streak_ends_run :
  (forall page rest consecutive_failures total_fetched s,
      fst (fetch_with_retry upstream page s) = None ->
      10 <= consecutive_failures + 1 ->
      pages_loop upstream clock (page :: rest) consecutive_failures
        total_fetched s
      = (total_fetched,
         extend (snd (fetch_with_retry upstream page s))
                [LogSkipping page (consecutive_failures + 1);
                 LogStopping (consecutive_failures + 1) page]))
  /\ (forall page rest consecutive_failures total_fetched s,
         fst (fetch_with_retry upstream page s) = None ->
         consecutive_failures + 1 < 10 ->
         pages_loop upstream clock (page :: rest) consecutive_failures
           total_fetched s
         = pages_loop upstream clock rest (consecutive_failures + 1)
             total_fetched
             (extend (snd (fetch_with_retry upstream page s))
                     [LogSkipping page (consecutive_failures + 1)]))
  /\ (forall page rest consecutive_failures total_fetched s item items,
         fst (fetch_with_retry upstream page s) = Some (item :: items) ->
         exists total' s',
           pages_loop upstream clock (page :: rest) consecutive_failures
             total_fetched s
           = pages_loop upstream clock rest 0 total' s')
  /\ (forall start_page max_pages s c p,
         LogStopping c p ∈ run_events upstream clock start_page max_pages s ->
         Forall (fun q => q <= p)
                (requested (run_events upstream clock start_page max_pages s)))
  /\ (forall first_bad s,
         1 <= first_bad <= 41 ->
         (forall h p, 1 <= p < first_bad -> page_with_items (upstream h p)) ->
         (forall h p, first_bad <= p < first_bad + 10 ->
                      failed_attempt (upstream h p)) ->
         LogStopping 10 (first_bad + 9) ∈ run_events upstream clock 1 None s).
Proof.
  split; [|split; [|split; [|split]]].
  - intros page rest cf total s Hnone Hten. rewrite pages_loop_step.
    destruct (fetch_with_retry upstream page s) as [r s1].
    cbn [fst snd] in *. subst r.
    destruct (10 <=? cf + 1) eqn:Hle; [done|lia].
  - intros page rest cf total s Hnone Hbelow. rewrite pages_loop_step.
    destruct (fetch_with_retry upstream page s) as [r s1].
    cbn [fst snd] in *. subst r.
    destruct (10 <=? cf + 1) eqn:Hle; [lia|done].
  - intros page rest cf total s item items Hsome. rewrite pages_loop_step.
    destruct (fetch_with_retry upstream page s) as [r s1].
    cbn [fst snd] in *. subst r.
    destruct (validate_all (item :: items)) as [|v vs]; cbn beta iota zeta;
      [by eauto|].
    match goal with
    | |- context [DogCache.add_dogs_batch ?n ?d ?t0] =>
        destruct (DogCache.add_dogs_batch n d t0) as [added t]
    end.
    by eauto.
  - intros start_page max_pages s c p Hin.
    destruct (run_events_in_order start_page max_pages s) as (_ & Hord & _).
    by apply (stops_in_order_requested start_page _ (LogStopping c p) p).
  - intros first_bad s Hrange Hgood Hbad.
    destruct (run_events_in_order 1 None s)
      as (_ & _ & ev & total & size & -> & Hh).
    rewrite elem_of_app, elem_of_app. right. left.
    revert Hh. unfold py_range, end_page.
    replace (MAX_EXTERNAL_PAGES + 1 - 1)
      with (Z.of_nat (Z.to_nat (first_bad - 1))
            + (Z.of_nat 10 + (41 - first_bad)))
      by (unfold MAX_EXTERNAL_PAGES; lia).
    rewrite seqZ_app by lia. rewrite seqZ_app by lia.
    destruct (pages_loop_good_prefix (Z.to_nat (first_bad - 1)) 1
                (seqZ (1 + Z.of_nat (Z.to_nat (first_bad - 1))) (Z.of_nat 10)
                 ++ seqZ (1 + Z.of_nat (Z.to_nat (first_bad - 1)) + Z.of_nat 10)
                      (41 - first_bad))
                0 (extend s [LogPlan 1 None]))
      as (total' & s' & ev1 & -> & Hh1);
      [intros h p Hp; apply Hgood; lia|].
    destruct (pages_loop_bad_streak 9
                (1 + Z.of_nat (Z.to_nat (first_bad - 1)))
                (seqZ (1 + Z.of_nat (Z.to_nat (first_bad - 1)) + Z.of_nat 10)
                      (41 - first_bad))
                0 total' s')
      as (s'' & ev2 & -> & Hh2 & Hin);
      [intros h p Hp; apply Hbad; lia|done|].
    cbn [snd]. rewrite Hh2, Hh1, <- app_assoc. intros Heq.
    apply app_inv_head in Heq. subst ev.
    rewrite elem_of_app. right.
    by replace (first_bad + 9)
      with (1 + Z.of_nat (Z.to_nat (first_bad - 1)) + Z.of_nat 9) by lia.
Qed.

End RunFacts.

(** With an upstream that never answers, page 4 is asked for three times. *)
Lemma fetch_with_retry_three_attempts_witness :
  (forall h, failed_attempt (upstream_down_from 0 h 4))
  /\ fst (Ingest.fetch_with_retry (upstream_down_from 0) 4 (Ingest.initial ∅))
     = None
  /\ filter Ingest.is_io
       (Ingest.history
          (snd (Ingest.fetch_with_retry (upstream_down_from 0) 4
                  (Ingest.initial ∅))))
     = filter Ingest.is_io (Ingest.history (Ingest.initial ∅))
       ++ [Ingest.Get 4; Ingest.Sleep 1; Ingest.Get 4; Ingest.Sleep 2;
           Ingest.Get 4]
  /\ Ingest.db (snd (Ingest.fetch_with_retry (upstream_down_from 0) 4
                       (Ingest.initial ∅)))
     = Ingest.db (Ingest.initial ∅).
Proof.
  assert (H : forall h, failed_attempt (upstream_down_from 0 h 4)).
  { intros h. exact I. }
  split; [exact H|].
  exact (fetch_with_retry_three_attempts (upstream_down_from 0) 4
           (Ingest.initial ∅) H).
Defined.

(** Page 7 comes back empty: the run from page 1 asks for no page after it. *)
Lemma empty_page_ends_run_witness :
  Ingest.LogFetched 7 0
    ∈ run_events (upstream_empty_at 7) (fun _ => 0) 1 None (Ingest.initial ∅)
  /\ Forall (fun q => q <= 7)
       (Ingest.requested
          (run_events (upstream_empty_at 7) (fun _ => 0) 1 None
             (Ingest.initial ∅))).
Proof.
  assert (H : Ingest.LogFetched 7 0
                ∈ run_events (upstream_empty_at 7) (fun _ => 0) 1 None
                    (Ingest.initial ∅)).
  { refine (bool_decide_unpack _ _). vm_compute. exact I. }
  split; [exact H|].
  exact (empty_page_ends_run (upstream_empty_at 7) (fun _ => 0) 1 None
           (Ingest.initial ∅) 7 H).
Defined.

(** Pages 1 and 2 hold an item and every page from 3 on fails: the run stops
    at page 12, and no request is for a later page. *)
Lemma failure_streak_ends_run_witness :
  1 <= 3 <= 41
  /\ (forall h p, 1 <= p < 3 -> page_with_items (upstream_down_from 3 h p))
  /\ (forall h p, 3 <= p < 3 + 10 -> failed_attempt (upstream_down_from 3 h p))
  /\ Ingest.LogStopping 10 (3 + 9)
       ∈ run_events (upstream_down_from 3) (fun _ => 0) 1 None (Ingest.initial ∅)
  /\ Forall (fun q => q <= 3 + 9)
       (Ingest.requested
          (run_events (upstream_down_from 3) (fun _ => 0) 1 None
             (Ingest.initial ∅))).
Proof.
  assert (Hrange : 1 <= 3 <= 41) by lia.
  assert (Hgood : forall h p, 1 <= p < 3 ->
                              page_with_items (upstream_down_from 3 h p)).
  { intros h p Hp. unfold upstream_down_from.
    destruct (p <? 3) eqn:Hlt; [|lia]. by eexists _, _. }
  assert (Hbad : forall h p, 3 <= p < 3 + 10 ->
                             failed_attempt (upstream_down_from 3 h p)).
  { intros h p Hp. unfold upstream_down_from.
    destruct (p <? 3) eqn:Hlt; [lia|exact I]. }
  destruct (failure_streak_ends_run (upstream_down_from 3) (fun _ => 0))
    as (_ & _ & _ & Hstop & Hrun).
  pose proof (Hrun 3 (Ingest.initial ∅) Hrange Hgood Hbad) as Hin.
  repeat split; try done.
  exact (Hstop 1 None (Ingest.initial ∅) 10 (3 + 9) Hin).
Defined.

(** The same run refutes the stop at page 13: the last request is for page
    12 and no line reports a stop at page 13. *)
Lemma ten_failures_from_page_3_do_not_stop_at_page_13 :
  ~ (forall (upstream : list Ingest.event -> Z -> Ingest.response)
            (clock : list Ingest.event -> Z) (s : Ingest.state),
        (forall h p, 1 <= p < 3 -> page_with_items (upstream h p)) ->
        (forall h p, 3 <= p < 3 + 10 -> failed_attempt (upstream h p)) ->
        (exists c, Ingest.LogStopping c 13 ∈ run_events upstream clock 1 None s)
        \/ last (Ingest.requested (run_events upstream clock 1 None s))
           = Some 13).
Proof.
  intros Hclaim.
  destruct (Hclaim (upstream_down_from 3) (fun _ => 0) (Ingest.initial ∅))
    as [[c Hc]|Hlast].
  - intros h p Hp. unfold upstream_down_from.
    destruct (p <? 3) eqn:Hlt; [|lia]. by eexists _, _.
  - intros h p Hp. unfold upstream_down_from.
    destruct (p <? 3) eqn:Hlt; [lia|exact I].
  - assert (Hnone : existsb (reports_stop_at 13)
                      (run_events (upstream_down_from 3) (fun _ => 0) 1 None
                         (Ingest.initial ∅)) = false)
      by (vm_compute; reflexivity).
    apply not_true_iff_false in Hnone. apply Hnone.
    apply existsb_exists. exists (Ingest.LogStopping c 13).
    split; [by apply list_elem_of_In|]. apply Z.eqb_refl.
  - assert (Hlast12 : last (Ingest.requested
                              (run_events (upstream_down_from 3) (fun _ => 0)
                                 1 None (Ingest.initial ∅))) = Some 12)
      by (vm_compute; reflexivity).
    rewrite Hlast12 in Hlast. discriminate Hlast.
Qed.

(** ** Job scheduler *)

Section SchedulerFacts.
Import Scheduler.

Variable World : Type.

Implicit Types (j : job World) (jobs pre post : list (job World)) (w : World).

Lemma add_job_well_formed jobs f interval_seconds name :
  Forall well_formed jobs ->
  Forall well_formed (add_job jobs f interval_seconds name).
Proof.
  intros Hjobs. unfold add_job. apply Forall_app. split; [done|].
  apply Forall_singleton. unfold well_formed. cbn.
  destruct interval_seconds; [by eauto|done].
Qed.

Lemma set_last_run_well_formed j t : well_formed j -> well_formed (set_last_run j t).
Proof. by destruct j. Qed.

(** A well-formed job never stops the loop, whatever its function does. *)
Lemma run_job_total current_time j w :
  well_formed j ->
  exists k w' out,
    run_job current_time j w = Some (k, w', out)
    /\ (forall j', k = Some j' -> well_formed j').
Proof.
  intros Hwf. unfold run_job. destruct (run_once j) eqn:Honce.
  - destruct (call (func j) w); by eexists None, _, _.
  - destruct (Hwf Honce) as [every Hevery]. rewrite Hevery.
    destruct (every <=? current_time - last_run j).
    + destruct (call (func j) w); eexists (Some _), _, _; split; try done.
      * intros j' [= <-]. by apply set_last_run_well_formed.
      * by intros j' [= <-].
    + eexists (Some j), _, _. split; [done|]. by intros j' [= <-].
Qed.

Lemma tick_total current_time jobs w :
  Forall well_formed jobs ->
  exists jobs' w' out,
    tick current_time jobs w = Some (jobs', w', out)
    /\ Forall well_formed jobs'.
Proof.
  intros Hjobs. revert w.
  induction Hjobs as [|j jobs Hj Hjobs IH]; intros w.
  - by eexists [], _, _.
  - destruct (run_job_total current_time j w Hj) as (k & w1 & out1 & Hrun & Hk).
    destruct (IH w1) as (jobs' & w2 & out2 & Htick & Hwf).
    cbn [tick]. rewrite Hrun, Htick.
    eexists _, _, _. split; [done|].
    destruct k as [j'|]; cbn; [|done].
    apply Forall_cons. split; [by apply Hk|done].
Qed.

(** A pass over a list in two parts is the pass over the first part followed
    by the pass over the second. *)
Lemma tick_app current_time pre post w :
  tick current_time (pre ++ post) w
  = match tick current_time pre w with
    | None => None
    | Some (jobs1, w1, out1) =>
        match tick current_time post w1 with
        | None => None
        | Some (jobs2, w2, out2) => Some (jobs1 ++ jobs2, w2, out1 ++ out2)
        end
    end.
Proof.
  revert w. induction pre as [|j pre IH]; intros w.
  - cbn. by destruct (tick current_time post w) as [[[??]?]|].
  - cbn [app tick]. destruct (run_job current_time j w) as [[[k w1] out1]|];
      [|done].
    rewrite IH. destruct (tick current_time pre w1) as [[[jobs1 w2] out2]|];
      [|done].
    destruct (tick current_time post w2) as [[[jobs2 w3] out3]|]; [|done].
    destruct k; cbn; by rewrite app_assoc.
Qed.

(** A recurring job that is due has its function called. *)
Lemma run_job_due current_time j w every :
  run_once j = false ->
  interval j = Some every ->
  every <= current_time - last_run j ->
  run_job current_time j w
  = match call (func j) w with
    | Returned w' =>
        Some (Some (set_last_run j current_time), w',
              [Running (name j); Completed (name j)])
    | Raised w' => Some (Some j, w', [Running (name j); Error (name j)])
    end.
Proof.
  intros Honce Hevery Hdue. unfold run_job. rewrite Honce, Hevery.
  destruct (every <=? current_time - last_run j) eqn:Hle; [done|lia].
Qed.

(** C8. When the function of a recurring job raises during a pass, the pass
    goes on with the jobs after it and the job stays in the list as it was,
    [last_run] included; so at the next pass, at a clock reading that is
    not earlier, its function is called again.  [last_run] changes only when
    the function returns, and then to the clock reading of the pass. *)
Theorem failed_recurring_job_is_retried :
  (forall current_time pre j post w every pre' w1 out1 w2,
      Forall well_formed post ->
      run_once j = false ->
      interval j = Some every ->
      every <= current_time - last_run j ->
      tick current_time pre w = Some (pre', w1, out1) ->
      call (func j) w1 = Raised w2 ->
      exists post' w3 out3,
        tick current_time (pre ++ j :: post) w
        = Some (pre' ++ j :: post', w3,
                out1 ++ [Running (name j); Error (name j)] ++ out3))
  /\ (forall current_time next_time pre j post w every,
         Forall well_formed (pre ++ j :: post) ->
         run_once j = false ->
         interval j = Some every ->
         every <= current_time - last_run j ->
         current_time <= next_time ->
         exists jobs' w' out,
           tick next_time (pre ++ j :: post) w = Some (jobs', w', out)
           /\ In (Running (name j)) out)
  /\ (forall current_time j w j' w' out,
         run_once j = false ->
         run_job current_time j w = Some (Some j', w', out) ->
         last_run j' <> last_run j ->
         call (func j) w = Returned w' /\ last_run j' = current_time).
Proof.
  split; [|split].
  - intros ct pre j post w every pre' w1 out1 w2 Hpost Honce Hevery Hdue
           Hpre Hraise.
    rewrite tick_app, Hpre. cbn [tick].
    rewrite (run_job_due ct j w1 every Honce Hevery Hdue), Hraise.
    destruct (tick_total ct post w2 Hpost) as (post' & w3 & out3 & -> & _).
    by eexists post', w3, out3.
  - intros ct nt pre j post w every Hwf Honce Hevery Hdue Hnext.
    apply Forall_app in Hwf. destruct Hwf as [Hpre Hpost].
    apply Forall_cons in Hpost. destruct Hpost as [_ Hpost].
    destruct (tick_total nt pre w Hpre) as (pre' & w1 & out1 & Htick & _).
    rewrite tick_app, Htick. cbn [tick].
    rewrite (run_job_due nt j w1 every Honce Hevery) by lia.
    destruct (call (func j) w1) as [w2|w2];
      destruct (tick_total nt post w2 Hpost) as (post' & w3 & out3 & -> & _);
      eexists _, _, _; (split; [done|]);
      apply in_or_app; right; by left.
  - intros ct j w j' w' out Honce Hrun Hchanged.
    unfold run_job in Hrun. rewrite Honce in Hrun.
    destruct (interval j) as [every|]; [|done].
    destruct (every <=? ct - last_run j).
    + destruct (call (func j) w) as [w2|w2]; injection Hrun as <- <- <-;
        [done|by destruct Hchanged].
    + injection Hrun as <- <- <-. by destruct Hchanged.
Qed.

(** What the loop does with a recurring job fresh from [add_job], whose
    [last_run] is 0: while the clock reads less than the interval the passes
    call nothing. *)
Lemma fresh_job_waits_for_clock f every label times w :
  Forall (fun t => t < every) times ->
  _run_loop times (add_job [] f (Some every) label) w
  = Some (add_job [] f (Some every) label, w, map (fun _ => []) times).
Proof.
  intros Hearly. induction Hearly as [|t times Ht _ IH]; [done|].
  cbn [_run_loop]. unfold add_job at 1. cbn [app tick run_job run_once interval
                                               last_run].
  destruct (every <=? t - 0) eqn:Hle; [lia|].
  cbn [keep app]. unfold add_job in IH. cbn [app] in IH. by rewrite IH.
Qed.

(** And the first pass at which the clock reads the interval or more calls
    its function, however long ago the job was added. *)
Lemma fresh_job_runs_by_clock f every label t w :
  every <= t ->
  exists w',
    tick t (add_job [] f (Some every) label) w
    = Some ([set_last_run (mkJob World f (Some every) (name_or label f) 0 false) t],
            w', [Running (name_or label f); Completed (name_or label f)])
    \/ tick t (add_job [] f (Some every) label) w
       = Some (add_job [] f (Some every) label, w',
               [Running (name_or label f); Error (name_or label f)]).
Proof.
  intros Hdue. unfold add_job. cbn [app tick].
  rewrite (run_job_due t _ w every) by (cbn; done || lia).
  cbn [func call name]. destruct (call f w) as [w'|w']; exists w'; cbn; eauto.
Qed.

End SchedulerFacts.

(** A job with interval 5 whose function raises at a pass at clock reading
    1000: it is still in the list with [last_run] 0. *)
Lemma failed_recurring_job_is_retried_witness :
  Forall (@well_formed nat) []
  /\ Scheduler.run_once (Scheduler.mkJob nat failing (Some 5) "refresh" 0 false)
     = false
  /\ Scheduler.interval (Scheduler.mkJob nat failing (Some 5) "refresh" 0 false)
     = Some 5
  /\ 5 <= 1000
          - Scheduler.last_run
              (Scheduler.mkJob nat failing (Some 5) "refresh" 0 false)
  /\ Scheduler.tick 1000 [] 0%nat = Some ([], 0%nat, [])
  /\ Scheduler.call failing 0%nat = Scheduler.Raised 1%nat
  /\ exists post' w3 out3,
      Scheduler.tick 1000
        ([] ++ Scheduler.mkJob nat failing (Some 5) "refresh" 0 false :: [])
        0%nat
      = Some ([] ++ Scheduler.mkJob nat failing (Some 5) "refresh" 0 false
                 :: post',
              w3,
              [] ++ [Scheduler.Running "refresh"; Scheduler.Error "refresh"]
                 ++ out3).
Proof.
  repeat (split; [first [reflexivity | by constructor | by cbn]|]).
  apply (proj1 (failed_recurring_job_is_retried nat)
               1000 [] (Scheduler.mkJob nat failing (Some 5) "refresh" 0 false)
               [] 0%nat 5 [] 0%nat [] 1%nat);
    first [reflexivity | by constructor | by cbn].
Defined.

(** C1 (the code at the failing input). A job with interval 5 is added while
    the clock reads 1700000000 and the loop starts at once: the first pass,
    at that same reading, calls the function of the job, although no time
    has gone by since the job was added. *)
Theorem recurring_job_runs_in_first_pass :
  Scheduler._run_loop [1700000000]
    (Scheduler.add_job [] counting (Some 5) None) 0%nat
  = Some ([Scheduler.mkJob nat counting (Some 5) "refresh" 1700000000 false],
          1%nat,
          [[Scheduler.Running "refresh"; Scheduler.Completed "refresh"]]).
Proof. reflexivity. Qed.

(** ** Validator *)

Section ValidatorFacts.
Import PyStr Validator.

Lemma code_inj c p : code c = code p -> c = p.
Proof.
  unfold code. intros H.
  rewrite <- (ascii_N_embedding c), <- (ascii_N_embedding p). by rewrite H.
Qed.

Lemma code_bounded c : (code c < 256)%N.
Proof. apply N_ascii_bounded. Qed.

Lemma is_space_iff c : is_space c = true <-> is_space_code (code c).
Proof.
  unfold is_space, is_space_code. cbv zeta.
  rewrite !orb_true_iff, !andb_true_iff, !N.leb_le, !N.eqb_eq. tauto.
Qed.

Lemma lower_char_cases c :
  (is_capital (code c) /\ lower_char c = ascii_of_N (code c + 32))
  \/ (~ is_capital (code c) /\ lower_char c = c).
Proof.
  unfold lower_char, is_capital. cbv zeta.
  destruct ((65 <=? code c)%N && (code c <=? 90)%N
            || (192 <=? code c)%N && (code c <=? 222)%N
               && negb (code c =? 215)%N) eqn:Htest.
  - left. split; [|done].
    rewrite !orb_true_iff, !andb_true_iff, !N.leb_le, negb_true_iff,
      N.eqb_neq in Htest. tauto.
  - right. split; [|done]. intros Hcap.
    apply not_true_iff_false in Htest. apply Htest.
    rewrite !orb_true_iff, !andb_true_iff, !N.leb_le, negb_true_iff, N.eqb_neq.
    tauto.
Qed.

Lemma plain_char_iff p :
  plain_char p = true
  <-> (code p < 128)%N /\ ~ (65 <= code p /\ code p <= 90)%N
      /\ ~ is_space_code (code p).
Proof.
  unfold plain_char.
  rewrite !andb_true_iff, !negb_true_iff, N.ltb_lt.
  rewrite <- !not_true_iff_false, andb_true_iff, !N.leb_le, is_space_iff.
  tauto.
Qed.

(** On a plain pattern character, [lower_char] compares up to case. *)
Lemma lower_char_plain c p :
  plain_char p = true -> lower_char c = p <-> eq_nocase c p.
Proof.
  rewrite plain_char_iff. intros (Hascii & Hnocap & _).
  pose proof (code_bounded c) as Hc.
  unfold eq_nocase.
  destruct (lower_char_cases c) as [[Hcap ->]|[Hcap ->]];
    unfold is_capital in Hcap.
  - split.
    + intros Heq. right.
      assert ((code c + 32)%N = code p) as Hcode.
      { rewrite <- Heq. unfold code in *. rewrite N_ascii_embedding; lia. }
      lia.
    + intros [->|(_ & _ & Heq)]; [lia|].
      rewrite Heq. apply ascii_N_embedding.
  - split; [by left|]. intros [Heq|(? & ? & Heq)]; [done|]. lia.
Qed.

(** A character that matches a plain pattern character is no whitespace. *)
Lemma eq_nocase_no_space c p :
  plain_char p = true -> eq_nocase c p -> is_space c = false.
Proof.
  rewrite plain_char_iff. intros (_ & _ & Hnospace) Heq.
  apply not_true_iff_false. rewrite is_space_iff.
  unfold is_space_code in *.
  destruct Heq as [->|(? & ? & Heq)]; [done|]. lia.
Qed.

Lemma append_cons c (a b : string) : String c a +:+ b = String c (a +:+ b).
Proof. reflexivity. Qed.

Lemma append_nil_l (s : string) : "" +:+ s = s.
Proof. reflexivity. Qed.

Ltac sapp := rewrite ?append_cons, ?append_nil_l in *.

Lemma append_assoc (a b c : string) : (a +:+ b) +:+ c = a +:+ b +:+ c.
Proof. induction a as [|x a IH]; sapp; congruence. Qed.

Lemma append_nil_r (s : string) : s +:+ "" = s.
Proof. induction s as [|x s IH]; sapp; congruence. Qed.

Lemma prefix_iff pat s :
  String.prefix pat s = true <-> exists post, s = pat +:+ post.
Proof.
  revert s. induction pat as [|p pat IH]; intros s.
  - split; [|by destruct s]. intros _. by exists s.
  - destruct s as [|c s]; cbn [String.prefix].
    + split; [done|]. intros [post Hpost]. sapp. discriminate Hpost.
    + destruct (ascii_dec p c) as [->|Hne].
      * rewrite IH. split; intros [post Hpost]; exists post; sapp; congruence.
      * split; [done|]. intros [post Hpost]. sapp. congruence.
Qed.

(** The [in] operator finds exactly the substrings. *)
Lemma str_in_iff pat s :
  str_in pat s = true <-> exists pre post, s = pre +:+ pat +:+ post.
Proof.
  induction s as [|c s IH]; cbn [str_in]; rewrite orb_true_iff, prefix_iff.
  - split.
    + intros [[post Hpost]|Hfalse]; [|done]. by exists EmptyString, post.
    + intros (pre & post & Heq). left. exists post.
      destruct pre; sapp; [done|discriminate Heq].
  - rewrite IH. split.
    + intros [[post Hpost]|(pre & post & Hrest)].
      * by exists EmptyString, post.
      * exists (String c pre), post. sapp. by rewrite Hrest.
    + intros (pre & post & Heq). destruct pre as [|c' pre]; sapp.
      * left. by exists post.
      * right. exists pre, post. congruence.
Qed.

Lemma lower_app a b : lower (a +:+ b) = lower a +:+ lower b.
Proof. induction a as [|x a IH]; sapp; cbn [lower]; sapp; congruence. Qed.

Lemma lower_split s x y :
  lower s = x +:+ y -> exists a b, s = a +:+ b /\ lower a = x /\ lower b = y.
Proof.
  revert s. induction x as [|c x IH]; intros s Heq.
  - by exists EmptyString, s.
  - destruct s as [|c' s]; sapp; [discriminate Heq|].
    cbn [lower] in Heq. injection Heq as Hc Hrest.
    destruct (IH s Hrest) as (a & b & -> & Ha & Hb).
    exists (String c' a), b. cbn [lower]. sapp. by rewrite Hc, Ha.
Qed.

Lemma lower_match mid pat :
  plain_chars pat = true -> lower mid = pat <-> match_nocase mid pat.
Proof.
  revert mid. induction pat as [|p pat IH]; intros mid Hplain.
  - destruct mid; cbn; split; done.
  - cbn in Hplain. apply andb_true_iff in Hplain. destruct Hplain as [Hp Hpat].
    destruct mid as [|c mid]; cbn [lower match_nocase]; [split; done|].
    rewrite <- (IH mid Hpat), <- (lower_char_plain c p Hp).
    split; [by intros [= -> ->]|by intros [-> ->]].
Qed.

(** Looking for a plain pattern in the lowered string is looking for it in
    the string up to case. *)
Lemma str_in_lower_iff s pat :
  plain_chars pat = true ->
  str_in pat (lower s) = true <-> contains_nocase s pat.
Proof.
  intros Hplain. rewrite str_in_iff. unfold contains_nocase. split.
  - intros (pre & post & Heq).
    apply lower_split in Heq. destruct Heq as (a & rest & -> & _ & Hrest).
    apply lower_split in Hrest. destruct Hrest as (mid & b & -> & Hmid & _).
    exists a, mid, b. split; [done|]. by apply lower_match.
  - intros (pre & mid & post & -> & Hmatch).
    exists (lower pre), (lower post). rewrite !lower_app.
    by rewrite (proj2 (lower_match mid pat Hplain) Hmatch).
Qed.

Lemma match_nocase_no_space mid pat :
  plain_chars pat = true -> match_nocase mid pat -> no_space mid.
Proof.
  revert mid. induction pat as [|p pat IH]; intros [|c mid] Hplain Hmatch;
    try done.
  cbn in Hplain. apply andb_true_iff in Hplain. destruct Hplain as [Hp Hpat].
  destruct Hmatch as [Hc Hmid]. split; [by apply (eq_nocase_no_space c p)|].
  by apply IH.
Qed.

Lemma match_nocase_nonempty mid pat :
  plain_pattern pat = true -> match_nocase mid pat -> mid <> EmptyString.
Proof.
  unfold plain_pattern. intros Hplain Hmatch ->.
  destruct pat; [done|]. by cbn in Hmatch.
Qed.

Lemma lstrip_split s : exists l, s = l +:+ lstrip s.
Proof.
  induction s as [|c s [l IH]]; [by exists EmptyString|].
  cbn [lstrip]. destruct (is_space c); [|by exists EmptyString].
  exists (String c l). sapp. by rewrite <- IH.
Qed.

Lemma rstrip_split s : exists r, s = rstrip s +:+ r.
Proof.
  induction s as [|c s [r IH]]; [by exists EmptyString|].
  cbn [rstrip]. destruct (rstrip s) as [|c' s'] eqn:Hs.
  - destruct (is_space c).
    + by exists (String c s).
    + exists s. by sapp.
  - exists r. sapp. congruence.
Qed.

(** Stripping on the left leaves in place a run of non-blank characters. *)
Lemma lstrip_keeps pre mid post :
  no_space mid -> mid <> EmptyString ->
  exists pre', lstrip (pre +:+ mid +:+ post) = pre' +:+ mid +:+ post.
Proof.
  intros Hmid Hne. induction pre as [|c pre [pre' IH]].
  - exists EmptyString. destruct mid as [|m mid]; [done|].
    destruct Hmid as [Hm _]. sapp. cbn [lstrip]. by rewrite Hm.
  - sapp. cbn [lstrip]. destruct (is_space c); [by exists pre'|].
    by exists (String c pre).
Qed.

Lemma rstrip_cons c x :
  is_space c = false \/ rstrip x <> EmptyString ->
  rstrip (String c x) = String c (rstrip x).
Proof.
  intros H. cbn [rstrip]. destruct (rstrip x); [|done].
  destruct H as [-> |H]; done.
Qed.

(** Stripping on the right leaves it in place too. *)
Lemma rstrip_keeps pre mid post :
  no_space mid -> mid <> EmptyString ->
  rstrip (pre +:+ mid +:+ post) = pre +:+ mid +:+ rstrip post.
Proof.
  intros Hmid Hne.
  assert (Hm : rstrip (mid +:+ post) = mid +:+ rstrip post).
  { clear Hne. induction mid as [|m mid IH]; [done|].
    destruct Hmid as [Hm Hmid]. sapp.
    rewrite rstrip_cons by by left. by rewrite IH. }
  induction pre as [|c pre IH]; [done|].
  sapp. rewrite rstrip_cons; [by rewrite IH|].
  right. rewrite IH. destruct pre; [|done].
  destruct mid; done.
Qed.

(** A plain pattern is found in the stripped string exactly when it is found
    in the string. *)
Lemma contains_nocase_strip s pat :
  plain_pattern pat = true ->
  contains_nocase (strip s) pat <-> contains_nocase s pat.
Proof.
  intros Hplain.
  assert (Hchars : plain_chars pat = true).
  { unfold plain_pattern in Hplain. by apply andb_true_iff in Hplain as [_ ?]. }
  unfold contains_nocase, strip. split.
  - intros (pre & mid & post & Heq & Hmatch).
    destruct (lstrip_split s) as [l Hl].
    destruct (rstrip_split (lstrip s)) as [r Hr].
    exists (l +:+ pre), mid, (post +:+ r). split; [|done].
    rewrite Hl at 1. rewrite Hr at 1. rewrite Heq.
    by rewrite !append_assoc.
  - intros (pre & mid & post & -> & Hmatch).
    pose proof (match_nocase_no_space mid pat Hchars Hmatch) as Hns.
    pose proof (match_nocase_nonempty mid pat Hplain Hmatch) as Hne.
    destruct (lstrip_keeps pre mid post Hns Hne) as [pre' ->].
    rewrite (rstrip_keeps pre' mid post Hns Hne). by eexists _, _, _.
Qed.

(** The test of the code for one pattern, and the words of the
    specification. *)
Lemma corrupted_iff b pat :
  plain_pattern pat = true ->
  str_in pat (lower (strip b)) = true <-> contains_nocase b pat.
Proof.
  intros Hplain. rewrite <- (contains_nocase_strip b pat Hplain).
  apply str_in_lower_iff.
  unfold plain_pattern in Hplain. by apply andb_true_iff in Hplain as [_ ?].
Qed.

Lemma len_zero_iff s : (len s =? 0) = true <-> s = EmptyString.
Proof.
  unfold len. rewrite Z.eqb_eq. destruct s; cbn [String.length]; split;
    try done; lia.
Qed.

(** The test on the breed field, for a string. *)
Lemma breed_test_iff b :
  negb (truthy (PStr b)) || negb (is_str (PStr b))
  || (len (strip (str_of (PStr b))) =? 0) = true
  <-> strip b = EmptyString.
Proof.
  cbn [truthy is_str str_of negb]. rewrite orb_false_r, negb_involutive.
  rewrite orb_true_iff, len_zero_iff, String.eqb_eq.
  split; [|by right]. by intros [->|H].
Qed.

(** The test on a field that is not a string. *)
Lemma field_test_not_str v :
  is_str v = false ->
  negb (truthy v) || negb (is_str v) || (len (strip (str_of v)) =? 0) = true.
Proof. intros ->. cbn [negb]. by rewrite orb_true_r. Qed.

(** The test for a corrupted breed. *)
Lemma corruption_test_iff b :
  (60 <? len (strip b))
  || str_in "http://" (lower (strip b))
  || str_in "https://" (lower (strip b))
  || existsb (fun ext => str_in ext (lower (strip b))) bad_extensions = true
  <-> (60 < String.length (strip b))%nat
      \/ contains_nocase b "http://"
      \/ contains_nocase b "https://"
      \/ Exists (contains_nocase b) [".jpg"; ".jpeg"; ".png"; ".gif"; ".webp"].
Proof.
  unfold bad_extensions. cbn [existsb].
  rewrite !Exists_cons, Exists_nil.
  rewrite !orb_true_iff, Z.ltb_lt.
  rewrite !corrupted_iff by reflexivity.
  unfold len. split.
  - intros [[[H|H]|H]|[H|[H|[H|[H|[H|H]]]]]]; try tauto; [left; lia|done].
  - intros [H|[H|[H|[H|[H|[H|[H|[H|[]]]]]]]]]; try tauto.
    left. left. left. lia.
Qed.

(** The image the code keeps. *)
Lemma image_normalized v :
  (if negb (truthy v) || negb (is_str v) || (len (strip (str_of v)) =? 0)
   then EmptyString else strip (str_of v))
  = normalized_image v.
Proof.
  destruct v as [| | | |i| |]; try by rewrite field_test_not_str.
  destruct (negb (truthy (PStr i)) || negb (is_str (PStr i))
            || (len (strip (str_of (PStr i))) =? 0)) eqn:Htest; [|done].
  apply breed_test_iff in Htest. by cbn.
Qed.

(** C3. [validate_and_normalize_dog_data] rejects exactly the inputs the
    specification lists: those that are no dict, those whose breed is absent,
    no string or empty after trimming, those whose trimmed breed is longer
    than 60, and those whose breed contains, case-insensitively, [http://],
    [https://] or one of [.jpg .jpeg .png .gif .webp].  Every other input
    gives the record of the trimmed breed and the trimmed image, the image
    being the empty string when it is absent, no string or blank. *)
Theorem normalize_matches_specification raw :
  (normalize_rejects raw /\ validate_and_normalize_dog_data raw = None)
  \/ (~ normalize_rejects raw
      /\ exists d b,
          raw = PDict d
          /\ dict_get d "breed" = PStr b
          /\ validate_and_normalize_dog_data raw
             = Some {| breed := strip b;
                       image := normalized_image (dict_get d "image") |}).
Proof.
  destruct raw as [| | | | | |d]; try (left; split; [exact I|reflexivity]).
  unfold validate_and_normalize_dog_data, normalize_rejects.
  cbn [is_dict negb items_of]. cbv zeta.
  destruct (dict_get d "breed") as [| | | |b| |] eqn:Hbreed;
    try (left; split; [exact I|]; by rewrite field_test_not_str).
  destruct (negb (truthy (PStr b)) || negb (is_str (PStr b))
            || (len (strip (str_of (PStr b))) =? 0)) eqn:Hblank.
  { left. split; [|done]. left. by apply breed_test_iff. }
  assert (Hfilled : strip b <> EmptyString).
  { intros Hempty. apply breed_test_iff in Hempty. congruence. }
  cbn [str_of].
  destruct ((60 <? len (strip b))
            || str_in "http://" (lower (strip b))
            || str_in "https://" (lower (strip b))
            || existsb (fun ext => str_in ext (lower (strip b))) bad_extensions)
    eqn:Hcorrupt.
  { left. split; [|done]. right. by apply corruption_test_iff. }
  right. split.
  - intros [Hempty|Hbad]; [done|].
    apply corruption_test_iff in Hbad. congruence.
  - exists d, b. split; [done|]. split; [done|].
    by rewrite image_normalized.
Qed.

End ValidatorFacts.

(** ** Read endpoint *)

Section ReadFacts.
Import ReadApi.

Lemma length_insert_item x l : length (insert_item x l) = S (length l).
Proof.
  induction l as [|y l IH]; [done|].
  cbn [insert_item]. destruct (item_leb x y); cbn [length]; by rewrite ?IH.
Qed.

Lemma length_sorted_items (d : gmap string string) :
  length (sorted_items d) = size d.
Proof.
  unfold sorted_items. rewrite <- length_map_to_list.
  induction (map_to_list d) as [|x l IH]; [done|].
  cbn [fold_right]. by rewrite length_insert_item, IH.
Qed.

Lemma slice_bound_range n i : 0 <= n -> 0 <= slice_bound n i <= n.
Proof. unfold slice_bound. intros Hn. destruct (i <? 0) eqn:Hi; lia. Qed.

Lemma length_py_slice {A : Type} (l : list A) start stop :
  length (py_slice l start stop)
  = Z.to_nat (slice_bound (Z.of_nat (length l)) stop
              - slice_bound (Z.of_nat (length l)) start).
Proof.
  unfold py_slice. cbv zeta.
  pose proof (slice_bound_range (Z.of_nat (length l)) start) as Hlo.
  pose proof (slice_bound_range (Z.of_nat (length l)) stop) as Hhi.
  rewrite length_firstn, length_skipn. lia.
Qed.

(** The number of records [get_dogs] puts in the body. *)
Lemma length_get_dogs arg (t : gmap string DogCache.row) :
  length (fst (get_dogs arg t))
  = Z.to_nat
      (slice_bound (Z.of_nat (size (DogCache.snapshot t)))
         ((page_arg arg - 1) * ITEMS_PER_PAGE + ITEMS_PER_PAGE)
       - slice_bound (Z.of_nat (size (DogCache.snapshot t)))
           ((page_arg arg - 1) * ITEMS_PER_PAGE)).
Proof.
  unfold get_dogs. cbv zeta. cbn [fst].
  by rewrite length_py_slice, length_map, length_sorted_items.
Qed.

(** Page 0 and the pages past the last one come back empty. *)
Lemma get_dogs_empty_at_zero_or_past_end page (t : gmap string DogCache.row) :
  page = 0 \/ total_pages t < page ->
  get_dogs (Some page) t = ([], 200).
Proof.
  intros Hpage.
  assert (Hlen : length (fst (get_dogs (Some page) t)) = 0%nat).
  { rewrite length_get_dogs. cbn [page_arg].
    unfold total_pages in Hpage. revert Hpage.
    generalize (Z.of_nat (size (DogCache.snapshot t))) (Nat2Z.is_nonneg (size (DogCache.snapshot t))).
    intros n Hn Hpage. unfold slice_bound, ITEMS_PER_PAGE in *.
    destruct Hpage as [->|Hpast].
    { destruct ((0 - 1) * 15 + 15 <? 0) eqn:?, ((0 - 1) * 15 <? 0) eqn:?; lia. }
    destruct (0 <? n) eqn:Hpos.
    - assert (n <= 15 * ((n + 15 - 1) / 15)).
      { pose proof (Z.mul_div_le (n + 15 - 1) 15).
        pose proof (Z.mod_pos_bound (n + 15 - 1) 15).
        pose proof (Z.div_mod (n + 15 - 1) 15). lia. }
      destruct ((page - 1) * 15 + 15 <? 0) eqn:?,
               ((page - 1) * 15 <? 0) eqn:?; lia.
    - destruct ((page - 1) * 15 + 15 <? 0) eqn:?,
               ((page - 1) * 15 <? 0) eqn:?; lia. }
  unfold get_dogs in *. cbn [fst] in Hlen. cbv zeta in *.
  apply length_zero_iff_nil in Hlen. by rewrite Hlen.
Qed.

(** A negative page comes back empty only while the store holds no more
    than 15 records for each page below 0. *)
Lemma get_dogs_negative_page page (t : gmap string DogCache.row) :
  page < 0 ->
  fst (get_dogs (Some page) t) = []
  <-> Z.of_nat (size (DogCache.snapshot t)) <= ITEMS_PER_PAGE * (- page).
Proof.
  intros Hneg. rewrite <- length_zero_iff_nil, length_get_dogs.
  cbn [page_arg]. unfold slice_bound, ITEMS_PER_PAGE.
  destruct ((page - 1) * 15 + 15 <? 0) eqn:?, ((page - 1) * 15 <? 0) eqn:?; lia.
Qed.

End ReadFacts.

(** C2 (the code at the failing input). With sixteen records in the store,
    the request for page -1 is answered with status 200 and a body that is
    not empty: the slice [all_dogs[-30:-15]] is the first record. *)
Theorem get_dogs_negative_page_returns_a_record :
  ReadApi.get_dogs (Some (-1)) kennel
  = ([{| breed := "Akita"; image := "img" |}], 200).
Proof. vm_compute. reflexivity. Qed.

(** * Further properties *)

(** ** Durable store *)

Section StoreMore.
Import DogCache.

Implicit Types (t : gmap string row) (dogs : list dog) (now : Z).

Lemma fold_insert_or_replace_lookup now dogs (acc : Z * gmap string row) k :
  snd (fold_left (insert_or_replace now) dogs acc) !! k
  = match last_image k dogs with
    | Some v => Some (mkRow v now now)
    | None => snd acc !! k
    end.
Proof.
  revert acc. induction dogs as [|d dogs IH]; intros acc; [done|].
  cbn [fold_left last_image]. rewrite IH.
  destruct (last_image k dogs) as [v|]; [done|].
  unfold insert_or_replace. cbn [snd].
  destruct (decide (breed d = k)) as [<-|Hne].
  - by rewrite lookup_insert_eq.
  - by rewrite lookup_insert_ne.
Qed.

(** The row under a key after a batch. *)
Lemma batch_lookup now dogs t k :
  snd (add_dogs_batch now dogs t) !! k
  = match last_image k dogs with
    | Some v => Some (mkRow v now now)
    | None => t !! k
    end.
Proof.
  destruct dogs as [|d dogs]; [done|].
  apply (fold_insert_or_replace_lookup now (d :: dogs) (0, t) k).
Qed.


Lemma fold_insert_or_replace_size now dogs (acc : Z * gmap string row) :
  (size (snd acc) <= size (snd (fold_left (insert_or_replace now) dogs acc))
   <= size (snd acc) + length dogs)%nat.
Proof.
  revert acc. induction dogs as [|d dogs IH]; intros acc; [cbn; lia|].
  cbn [fold_left length]. specialize (IH (insert_or_replace now acc d)).
  assert (Hstep : (size (snd acc) <= size (snd (insert_or_replace now acc d))
                   <= S (size (snd acc)))%nat).
  { unfold insert_or_replace. cbn [snd]. rewrite map_size_insert.
    destruct (snd acc !! breed d); cbn [id]; lia. }
  lia.
Qed.

(** The size of the table after a batch. *)
Lemma batch_size now dogs t :
  (size t <= size (snd (add_dogs_batch now dogs t)) <= size t + length dogs)%nat.
Proof.
  destruct dogs as [|d dogs]; [cbn; lia|].
  apply (fold_insert_or_replace_size now (d :: dogs) (0, t)).
Qed.

(** X2. A batch never makes the store smaller, and makes it larger by at
    most the number of its records. *)
Theorem add_dogs_batch_size now dogs t :
  (size t <= size (snd (add_dogs_batch now dogs t)) <= size t + length dogs)%nat.
Proof. exact (batch_size now dogs t). Qed.



(** X4. Two batches one after the other leave the snapshot that the two
    lists joined in one batch leave, and their counts add up to its count. *)
Theorem add_dogs_batch_app now1 now2 now first second t :
  DogCache.snapshot
    (snd (add_dogs_batch now2 second (snd (add_dogs_batch now1 first t))))
  = DogCache.snapshot (snd (add_dogs_batch now (first ++ second) t))
  /\ fst (add_dogs_batch now1 first t)
     + fst (add_dogs_batch now2 second (snd (add_dogs_batch now1 first t)))
     = fst (add_dogs_batch now (first ++ second) t).
Proof.
  split.
  - rewrite !add_dogs_batch_snapshot. unfold upsert_images.
    by rewrite fold_left_app.
  - assert (Hcount : forall n dogs t0,
               fst (add_dogs_batch n dogs t0) = Z.of_nat (length dogs)).
    { intros n [|d dogs] t0; [done|].
      apply (executemany_rowcount n (d :: dogs) t0). }
    rewrite !Hcount, length_app. lia.
Qed.

End StoreMore.


(** ** Read endpoint *)

Section ReadMore.
Import ReadApi.

Lemma insert_item_perm x l : insert_item x l ≡ₚ x :: l.
Proof.
  induction l as [|y l IH]; [done|].
  cbn [insert_item]. destruct (item_leb x y); [done|].
  rewrite IH. apply perm_swap.
Qed.

Lemma sorted_items_perm (d : gmap string string) :
  sorted_items d ≡ₚ map_to_list d.
Proof.
  unfold sorted_items. induction (map_to_list d) as [|x l IH]; [done|].
  cbn [fold_right]. by rewrite insert_item_perm, IH.
Qed.

Lemma item_leb_total x y : item_leb x y = false -> item_leb y x = true.
Proof.
  unfold item_leb. rewrite (String.compare_antisym (fst y) (fst x)).
  destruct (String.compare (fst x) (fst y)); cbn [CompOpp]; try done.
  intros Hle. destruct (String.leb_total (snd x) (snd y)); congruence.
Qed.

Lemma HdRel_insert_item y x l :
  item_le y x -> HdRel item_le y l -> HdRel item_le y (insert_item x l).
Proof.
  intros Hyx Hyl. destruct l as [|z l]; [by constructor|].
  cbn [insert_item]. destruct (item_leb x z); constructor; [done|].
  by inversion Hyl.
Qed.

Lemma insert_item_sorted x l :
  Sorted item_le l -> Sorted item_le (insert_item x l).
Proof.
  induction 1 as [|y l Hsorted IH Hhd]; [by repeat constructor|].
  cbn [insert_item]. destruct (item_leb x y) eqn:Hxy.
  - by repeat constructor.
  - constructor; [done|].
    apply HdRel_insert_item; [by apply item_leb_total|done].
Qed.

Lemma sorted_items_sorted (d : gmap string string) :
  Sorted item_le (sorted_items d).
Proof.
  unfold sorted_items. induction (map_to_list d) as [|x l IH];
    [constructor|].
  cbn [fold_right]. by apply insert_item_sorted.
Qed.

Lemma item_le_key a b : item_le a b -> String.le (fst a) (fst b).
Proof.
  unfold item_le, item_leb, String.le, String.leb.
  destruct (String.compare (fst a) (fst b)); done.
Qed.

Lemma sorted_items_keys_sorted (d : gmap string string) :
  StronglySorted String.le ((sorted_items d).*1).
Proof.
  apply Sorted_StronglySorted; [apply _|].
  induction (sorted_items_sorted d) as [|x l Hsorted IH Hhd];
    [constructor|].
  cbn. constructor; [done|].
  destruct Hhd as [|y l Hxy]; constructor. by apply item_le_key.
Qed.

Lemma sorted_items_keys_nodup (d : gmap string string) :
  NoDup ((sorted_items d).*1).
Proof. rewrite sorted_items_perm. apply NoDup_fst_map_to_list. Qed.

Lemma strictly_sorted (l : list string) :
  StronglySorted String.le l -> NoDup l ->
  StronglySorted (fun a b => String.compare a b = Lt) l.
Proof.
  induction 1 as [|x l Hsorted IH Hall]; intros Hnodup; [constructor|].
  apply NoDup_cons in Hnodup. destruct Hnodup as [Hfresh Hnodup].
  constructor; [by apply IH|].
  apply Forall_forall. intros y Hy.
  rewrite Forall_forall in Hall. specialize (Hall y Hy).
  unfold String.le, String.leb in Hall.
  destruct (String.compare x y) eqn:Hcmp; [|done|done].
  apply String.compare_eq_iff in Hcmp. by subst.
Qed.

Lemma all_dogs_breeds t : breed <$> all_dogs t = (sorted_items (DogCache.snapshot t)).*1.
Proof.
  unfold all_dogs. rewrite <- list_fmap_compose.
  by apply list_fmap_ext.
Qed.

(** X5. The list the endpoint pages through holds every record of the store
    exactly once, in strictly increasing order of breed. *)
Theorem all_dogs_sorted_complete t :
  (forall b i, {| breed := b; image := i |} ∈ all_dogs t
               <-> DogCache.snapshot t !! b = Some i)
  /\ NoDup (all_dogs t)
  /\ StronglySorted (fun a b => breed_lt a b) (all_dogs t).
Proof.
  split; [|split].
  - intros b i. unfold all_dogs. rewrite list_elem_of_fmap. split.
    + intros ([b' i'] & [= -> ->] & Hin).
      rewrite sorted_items_perm in Hin. by apply elem_of_map_to_list in Hin.
    + intros Hlook. exists (b, i). split; [done|].
      rewrite sorted_items_perm. by apply elem_of_map_to_list.
  - apply (NoDup_fmap_1 breed). rewrite all_dogs_breeds.
    apply sorted_items_keys_nodup.
  - pose proof (strictly_sorted _ (sorted_items_keys_sorted (DogCache.snapshot t))
                  (sorted_items_keys_nodup (DogCache.snapshot t))) as Hstrict.
    rewrite <- all_dogs_breeds in Hstrict.
    induction (all_dogs t) as [|d l IH]; [constructor|].
    cbn in Hstrict. apply StronglySorted_inv in Hstrict.
    destruct Hstrict as [Hrest Hall]. constructor; [by apply IH|].
    rewrite Forall_fmap in Hall. exact Hall.
Qed.

Lemma get_dogs_slice arg t :
  fst (get_dogs arg t)
  = py_slice (all_dogs t) ((page_arg arg - 1) * ITEMS_PER_PAGE)
      ((page_arg arg - 1) * ITEMS_PER_PAGE + ITEMS_PER_PAGE).
Proof. reflexivity. Qed.

Lemma length_all_dogs t : length (all_dogs t) = size (DogCache.snapshot t).
Proof. unfold all_dogs. by rewrite length_map, length_sorted_items. Qed.

(** A slice that starts at an index that is not negative. *)
Lemma py_slice_from {A : Type} (l : list A) (i k : nat) :
  py_slice l (Z.of_nat i) (Z.of_nat i + Z.of_nat k) = take k (drop i l).
Proof.
  unfold py_slice, slice_bound. cbv zeta.
  destruct (Z.ltb_spec (Z.of_nat i) 0); [lia|].
  destruct (Z.ltb_spec (Z.of_nat i + Z.of_nat k) 0); [lia|].
  destruct (decide (i <= length l)%nat) as [Hin|Hout].
  - replace (Z.to_nat (Z.of_nat i `min` Z.of_nat (length l))) with i by lia.
    destruct (decide (i + k <= length l)%nat).
    + f_equal. lia.
    + rewrite !take_ge; [done| |]; rewrite length_drop; lia.
  - rewrite !drop_ge by lia. by rewrite !take_nil.
Qed.

Lemma concat_chunks {A : Type} (k m : nat) (l : list A) :
  (length l <= k * m)%nat ->
  concat ((fun i => take k (drop (k * i) l)) <$> seq 0 m) = l.
Proof.
  revert l. induction m as [|m IH]; intros l Hlen.
  - destruct l; [done|]. cbn in Hlen. lia.
  - cbn [seq fmap list_fmap concat]. rewrite <- fmap_S_seq, <- list_fmap_compose.
    rewrite Nat.mul_0_r. cbn [drop].
    transitivity (take k l ++ drop k l); [|apply take_drop]. f_equal.
    etransitivity; [|apply (IH (drop k l)); rewrite length_drop; lia].
    f_equal. apply list_fmap_ext. intros _ i _. cbn.
    rewrite drop_drop. do 2 f_equal. lia.
Qed.

Lemma total_pages_covers t :
  (size (DogCache.snapshot t) <= 15 * Z.to_nat (total_pages t))%nat
  /\ 0 <= total_pages t.
Proof.
  unfold total_pages. cbv zeta. unfold ITEMS_PER_PAGE.
  generalize (size (DogCache.snapshot t)). intros n.
  destruct (Z.ltb_spec 0 (Z.of_nat n)); [|lia].
  pose proof (Z.div_mod (Z.of_nat n + 15 - 1) 15).
  pose proof (Z.mod_pos_bound (Z.of_nat n + 15 - 1) 15). lia.
Qed.

(** X6. The pages 1 to [total_pages], one after the other, are the whole
    sorted list: every record is on one page and none is repeated or
    skipped. *)
Theorem pages_cover_all_dogs t :
  concat ((fun page => fst (get_dogs (Some page) t)) <$> seqZ 1 (total_pages t))
  = all_dogs t.
Proof.
  destruct (total_pages_covers t) as [Hcover Hpos].
  unfold seqZ. rewrite <- list_fmap_compose.
  etransitivity;
    [|apply (concat_chunks 15 (Z.to_nat (total_pages t)) (all_dogs t));
      rewrite length_all_dogs; lia].
  f_equal. apply list_fmap_ext. intros _ i _. cbn [compose].
  rewrite get_dogs_slice. cbn [page_arg]. unfold ITEMS_PER_PAGE.
  replace ((Z.of_nat i + 1 - 1) * 15) with (Z.of_nat (15 * i)) by lia.
  apply (py_slice_from (all_dogs t) (15 * i) 15).
Qed.

(** X7. A page never holds more than 15 records, whatever the page
    parameter (absent, zero or negative included). *)
Theorem get_dogs_at_most_a_page arg t :
  (length (fst (get_dogs arg t)) <= 15)%nat.
Proof.
  rewrite length_get_dogs. unfold slice_bound, ITEMS_PER_PAGE.
  destruct ((page_arg arg - 1) * 15 + 15 <? 0) eqn:?,
           ((page_arg arg - 1) * 15 <? 0) eqn:?; lia.
Qed.

(** X8. Every page before the last one holds exactly 15 records, and the
    last page, [total_pages], holds at least one. *)
Theorem get_dogs_full_pages page t :
  1 <= page <= total_pages t ->
  (page < total_pages t -> length (fst (get_dogs (Some page) t)) = 15%nat)
  /\ (1 <= length (fst (get_dogs (Some page) t)))%nat.
Proof.
  intros Hpage. rewrite length_get_dogs. cbn [page_arg].
  unfold total_pages in *. cbv zeta in *. unfold ITEMS_PER_PAGE in *.
  revert Hpage. generalize (Z.of_nat (size (DogCache.snapshot t))). intros n.
  destruct (0 <? n) eqn:Hpos; [|lia]. intros Hpage.
  pose proof (Z.div_mod (n + 15 - 1) 15).
  pose proof (Z.mod_pos_bound (n + 15 - 1) 15).
  unfold slice_bound.
  destruct ((page - 1) * 15 + 15 <? 0) eqn:?, ((page - 1) * 15 <? 0) eqn:?;
    lia.
Qed.

End ReadMore.

(** The sixteen records fill page 1 and leave one record for page 2. *)
Lemma get_dogs_full_pages_witness :
  1 <= 1 <= ReadApi.total_pages kennel
  /\ (1 < ReadApi.total_pages kennel ->
      length (fst (ReadApi.get_dogs (Some 1) kennel)) = 15%nat)
  /\ (1 <= length (fst (ReadApi.get_dogs (Some 1%Z) kennel)))%nat.
Proof.
  assert (H : 1 <= 1 <= ReadApi.total_pages kennel) by (vm_compute; split; discriminate).
  split; [exact H|]. exact (get_dogs_full_pages 1 kennel H).
Defined.

(** ** Validator *)

Section ValidatorMore.
Import PyStr Validator.

Lemma lstrip_starts_clean s : starts_clean (lstrip s).
Proof.
  induction s as [|c s IH]; [done|].
  cbn [lstrip]. by destruct (is_space c) eqn:Hc.
Qed.

Lemma lstrip_fixed s : starts_clean s -> lstrip s = s.
Proof. destruct s as [|c s]; [done|]. cbn. by intros ->. Qed.

Lemma rstrip_starts_clean s : starts_clean s -> starts_clean (rstrip s).
Proof.
  destruct s as [|c s]; [done|]. cbn [starts_clean]. intros Hc.
  by rewrite rstrip_cons by by left.
Qed.

Lemma rstrip_rstrip s : rstrip (rstrip s) = rstrip s.
Proof.
  induction s as [|c s IH]; [done|].
  cbn [rstrip]. destruct (rstrip s) as [|c' s'] eqn:Hs.
  - destruct (is_space c) eqn:Hc; [done|]. cbn. by rewrite Hc.
  - rewrite rstrip_cons; [by rewrite IH|]. right. by rewrite IH.
Qed.

(** Stripping twice is stripping once. *)
Lemma strip_strip s : strip (strip s) = strip s.
Proof.
  unfold strip at 1.
  rewrite (lstrip_fixed (strip s))
    by (apply rstrip_starts_clean, lstrip_starts_clean).
  apply rstrip_rstrip.
Qed.

(** What an accepted input looks like. *)
Lemma validate_accepts raw r :
  validate_and_normalize_dog_data raw = Some r ->
  exists d b,
    raw = PDict d
    /\ dict_get d "breed" = PStr b
    /\ strip b <> EmptyString
    /\ (60 <? len (strip b))
       || str_in "http://" (lower (strip b))
       || str_in "https://" (lower (strip b))
       || existsb (fun ext => str_in ext (lower (strip b))) bad_extensions
       = false
    /\ r = {| breed := strip b;
              image := normalized_image (dict_get d "image") |}.
Proof.
  destruct raw as [| | | | | |d]; try done.
  unfold validate_and_normalize_dog_data. cbn [is_dict negb items_of]. cbv zeta.
  destruct (dict_get d "breed") as [| | | |b| |] eqn:Hbreed;
    try by rewrite field_test_not_str.
  destruct (negb (truthy (PStr b)) || negb (is_str (PStr b))
            || (len (strip (str_of (PStr b))) =? 0)) eqn:Hblank; [done|].
  cbn [str_of].
  destruct ((60 <? len (strip b))
            || str_in "http://" (lower (strip b))
            || str_in "https://" (lower (strip b))
            || existsb (fun ext => str_in ext (lower (strip b))) bad_extensions)
    eqn:Hcorrupt; [done|].
  rewrite image_normalized. intros [= <-].
  exists d, b. repeat split; try done.
  intros Hempty. apply breed_test_iff in Hempty. congruence.
Qed.

Lemma normalized_image_stripped v :
  strip (normalized_image v) = normalized_image v.
Proof. destruct v; try done. apply strip_strip. Qed.

(** X9. A record the validator has accepted passes it again unchanged:
    validating the dict of an accepted record gives that record back. *)
Theorem validate_idempotent raw r :
  validate_and_normalize_dog_data raw = Some r ->
  validate_and_normalize_dog_data (dict_of r) = Some r.
Proof.
  intros Hok.
  destruct (validate_accepts raw r Hok) as (d & b & _ & _ & Hfilled & Hclean & ->).
  unfold validate_and_normalize_dog_data, dict_of.
  cbn [is_dict negb items_of breed image]. cbv zeta.
  change (dict_get [("breed"%string, PStr (strip b));
                    ("image"%string, PStr (normalized_image (dict_get d "image")))]
            "breed") with (PStr (strip b)).
  change (dict_get [("breed"%string, PStr (strip b));
                    ("image"%string, PStr (normalized_image (dict_get d "image")))]
            "image") with (PStr (normalized_image (dict_get d "image"))).
  destruct (negb (truthy (PStr (strip b))) || negb (is_str (PStr (strip b)))
            || (len (strip (str_of (PStr (strip b)))) =? 0)) eqn:Hblank.
  { apply breed_test_iff in Hblank. rewrite strip_strip in Hblank. done. }
  cbn [str_of]. rewrite strip_strip, Hclean.
  rewrite image_normalized. cbn [normalized_image].
  by rewrite normalized_image_stripped.
Qed.

(** An accepted record is clean. *)
Lemma validate_accepts_clean raw r :
  validate_and_normalize_dog_data raw = Some r ->
  clean_breed (breed r) /\ strip (image r) = image r.
Proof.
  intros Hok.
  destruct (validate_accepts raw r Hok) as (d & b & _ & _ & Hfilled & Hclean & ->).
  cbn [breed image]. split; [|apply normalized_image_stripped].
  apply not_true_iff_false in Hclean. rewrite corruption_test_iff in Hclean.
  unfold clean_breed. split; [done|]. split; [lia|].
  split; [apply strip_strip|].
  unfold corrupt_patterns, bad_extensions. cbn [app].
  repeat (apply Forall_cons; split; [|]); try apply Forall_nil.
  all: try exact I.
  all: cbn beta; rewrite contains_nocase_strip by reflexivity;
    intros Hin; apply Hclean.
  1: by right; left.
  1: by right; right; left.
  all: right; right; right.
  all: rewrite !Exists_cons; tauto.
Qed.

(** X10. Every accepted record has a clean breed (not empty, at most 60
    characters, no whitespace at the ends, no URL scheme and no image-file
    extension in it) and an image with no whitespace at the ends. *)
Theorem validate_gives_clean_record raw r :
  validate_and_normalize_dog_data raw = Some r ->
  clean_breed (breed r) /\ strip (image r) = image r.
Proof. exact (validate_accepts_clean raw r). Qed.

End ValidatorMore.

(** The well-formed upstream item is accepted. *)
Lemma validate_idempotent_witness :
  Validator.validate_and_normalize_dog_data akita
  = Some {| breed := "Akita"; image := "akita-1" |}
  /\ Validator.validate_and_normalize_dog_data
       (dict_of {| breed := "Akita"; image := "akita-1" |})
     = Some {| breed := "Akita"; image := "akita-1" |}.
Proof.
  assert (H : Validator.validate_and_normalize_dog_data akita
              = Some {| breed := "Akita"; image := "akita-1" |})
    by reflexivity.
  split; [exact H|]. exact (validate_idempotent akita _ H).
Defined.

Lemma validate_gives_clean_record_witness :
  Validator.validate_and_normalize_dog_data akita
  = Some {| breed := "Akita"; image := "akita-1" |}
  /\ clean_breed (breed {| breed := "Akita"; image := "akita-1" |})
  /\ PyStr.strip (image {| breed := "Akita"; image := "akita-1" |})
     = image {| breed := "Akita"; image := "akita-1" |}.
Proof.
  assert (H : Validator.validate_and_normalize_dog_data akita
              = Some {| breed := "Akita"; image := "akita-1" |})
    by reflexivity.
  split; [exact H|]. exact (validate_gives_clean_record akita _ H).
Defined.

(** ** Fetch client *)

Section FetchMore.
Import Ingest.

Variable upstream : list event -> Z -> response.

(** One turn of the loop over attempts, whatever the reply: it ends the call
    with the array of a good reply, or goes on after a failed one. *)
Lemma retry_loop_step page attempt rest s :
  (exists data,
      upstream (history s ++ [LogFetching page attempt]) page = ok_reply data
      /\ retry_loop upstream page (attempt :: rest) s
         = (Some data,
            extend s [LogFetching page attempt; Get page;
                      LogFetched page (Z.of_nat (length data))]))
  \/ (exists e,
         (is_io e = false /\ fetch_level e = true)
         /\ failed_attempt (upstream (history s ++ [LogFetching page attempt]) page)
         /\ retry_loop upstream page (attempt :: rest) s
            = retry_loop upstream page rest
                (extend s ([LogFetching page attempt; Get page; e]
                           ++ pause_after attempt))).
Proof.
  assert (Hfailed : forall e,
             is_io e = false ->
             attempt_once upstream page attempt s
             = (None, extend s [LogFetching page attempt; Get page; e]) ->
             retry_loop upstream page (attempt :: rest) s
             = retry_loop upstream page rest
                 (extend s ([LogFetching page attempt; Get page; e]
                            ++ pause_after attempt))).
  { intros e _ He. cbn [retry_loop]. unfold bind at 1. rewrite He.
    unfold bind, pause_after. destruct (attempt <? MAX_RETRIES).
    - by rewrite emit_extend, extend_extend.
    - unfold ret. by rewrite app_nil_r. }
  assert (Hext : forall x,
             extend (mkState ((history s ++ [LogFetching page attempt])
                                ++ [Get page]) (db s) (last_fetch_time s)) [x]
             = extend s [LogFetching page attempt; Get page; x]).
  { intros x. unfold extend. simpl. by rewrite <- !app_assoc. }
  assert (Honce : attempt_once upstream page attempt s
                  = match upstream (history s ++ [LogFetching page attempt]) page with
                    | Raises =>
                        (None, extend s [LogFetching page attempt; Get page;
                                         LogError page])
                    | Reply code body =>
                        if code =? 200 then
                          match body with
                          | None =>
                              (None, extend s [LogFetching page attempt; Get page;
                                               LogError page])
                          | Some (PList data) =>
                              (Some data,
                               extend s [LogFetching page attempt; Get page;
                                         LogFetched page (Z.of_nat (length data))])
                          | Some _ =>
                              (None, extend s [LogFetching page attempt; Get page;
                                               LogInvalidFormat page])
                          end
                        else (None, extend s [LogFetching page attempt; Get page;
                                              LogStatus code page])
                    end).
  { unfold attempt_once, bind, http_get.
    rewrite emit_extend. cbn [history extend db last_fetch_time].
    destruct (upstream (history s ++ [LogFetching page attempt]) page)
      as [|code body]; [by rewrite emit_extend, Hext|].
    destruct (code =? 200); [|by rewrite emit_extend, Hext].
    destruct body as [[]|]; by rewrite emit_extend, Hext. }
  destruct (upstream (history s ++ [LogFetching page attempt]) page)
    as [|code body] eqn:Hreply.
  - right. exists (LogError page). split; [done|]. split; [exact I|].
    by apply Hfailed.
  - destruct (code =? 200) eqn:Hcode.
    + apply Z.eqb_eq in Hcode. subst code.
      destruct body as [[| | | | |data|]|].
      6: { left. exists data. split; [done|].
           cbn [retry_loop]. unfold bind. by rewrite Honce. }
      7: { right. exists (LogError page). split; [done|].
           split; [by right|]. by apply Hfailed. }
      all: right; exists (LogInvalidFormat page); split; [done|];
        (split; [by right|]); by apply Hfailed.
    + right. exists (LogStatus code page). split; [done|].
      split; [left; by apply Z.eqb_neq|]. by apply Hfailed.
Qed.

Lemma fetch_events_extend page s ev r :
  fetch_with_retry upstream page s = (r, extend s ev) ->
  fetch_events upstream page s = ev.
Proof.
  intros Hfetch. unfold fetch_events. rewrite Hfetch. cbn.
  by rewrite drop_app_length.
Qed.

(** The ways a call of [fetch_with_retry] can go. *)
Lemma fetch_with_retry_cases page s :
  exists result ev,
    fetch_with_retry upstream page s = (result, extend s ev)
    /\ ((exists data h,
            result = Some data /\ upstream h page = ok_reply data
            /\ (filter is_io ev = [Get page]
                \/ filter is_io ev = [Get page; Sleep 1; Get page]
                \/ filter is_io ev
                   = [Get page; Sleep 1; Get page; Sleep 2; Get page]))
        \/ (result = None
            /\ filter is_io ev
               = [Get page; Sleep 1; Get page; Sleep 2; Get page])).
Proof.
  unfold fetch_with_retry.
  change (py_range 1 (MAX_RETRIES + 1)) with [1; 2; 3].
  destruct (retry_loop_step page 1 [2; 3] s)
    as [(data & Hok & ->)|(e1 & [H1 _] & _ & ->)].
  { eexists _, _. split; [done|]. left. eexists data, _.
    split; [done|]. split; [exact Hok|]. by left. }
  change (pause_after 1) with [Sleep 1].
  destruct (retry_loop_step page 2 [3]
              (extend s ([LogFetching page 1; Get page; e1] ++ [Sleep 1])))
    as [(data & Hok & ->)|(e2 & [H2 _] & _ & ->)].
  { rewrite extend_extend. eexists _, _. split; [done|].
    left. eexists data, _. split; [done|]. split; [exact Hok|].
    right. left. cbn. by rewrite H1. }
  change (pause_after 2) with [Sleep 2].
  destruct (retry_loop_step page 3 []
              (extend (extend s ([LogFetching page 1; Get page; e1] ++ [Sleep 1]))
                      ([LogFetching page 2; Get page; e2] ++ [Sleep 2])))
    as [(data & Hok & ->)|(e3 & [H3 _] & _ & ->)].
  { rewrite !extend_extend. eexists _, _. split; [done|].
    left. eexists data, _. split; [done|]. split; [exact Hok|].
    right. right. cbn. by rewrite H1, H2. }
  change (pause_after 3) with (@nil event).
  cbn [retry_loop]. unfold bind, ret. rewrite emit_extend, !extend_extend.
  eexists _, _. split; [done|]. right. split; [done|].
  cbn. by rewrite H1, H2, H3.
Qed.

(** X11. Whatever the upstream answers, one call of [fetch_with_retry] sends
    one, two or three requests, all for the page asked, pauses 1 second
    after the first and 2 seconds after the second when they fail, never
    pauses after its last request, and leaves the store and
    [last_fetch_time] as they were. *)
Theorem fetch_with_retry_io_shape page s :
  snd (fetch_with_retry upstream page s) = extend s (fetch_events upstream page s)
  /\ (filter is_io (fetch_events upstream page s) = [Get page]
      \/ filter is_io (fetch_events upstream page s)
         = [Get page; Sleep 1; Get page]
      \/ filter is_io (fetch_events upstream page s)
         = [Get page; Sleep 1; Get page; Sleep 2; Get page]).
Proof.
  destruct (fetch_with_retry_cases page s) as (result & ev & Hfetch & Hcases).
  rewrite (fetch_events_extend page s ev result Hfetch), Hfetch.
  split; [done|].
  destruct Hcases as [(data & h & _ & _ & Hio)|[_ Hio]]; tauto.
Qed.

(** X12. [fetch_with_retry] gives up only after three requests, and the
    list it gives back is one the upstream sent as a JSON array with status
    200. *)
Theorem fetch_with_retry_result page s :
  match fst (fetch_with_retry upstream page s) with
  | Some data => exists h, upstream h page = ok_reply data
  | None =>
      filter is_io (fetch_events upstream page s)
      = [Get page; Sleep 1; Get page; Sleep 2; Get page]
  end.
Proof.
  destruct (fetch_with_retry_cases page s) as (result & ev & Hfetch & Hcases).
  rewrite (fetch_events_extend page s ev result Hfetch), Hfetch. cbn [fst].
  destruct Hcases as [(data & h & -> & Hok & _)|[-> Hio]]; [by exists h|done].
Qed.

End FetchMore.

(** ** Ingestion run, bootstrap and refresh *)

Section RunMore.
Import Ingest.

Variable upstream : list event -> Z -> response.
Variable clock : list event -> Z.

Lemma processed_app ev1 ev2 : processed (ev1 ++ ev2) = processed ev1 + processed ev2.
Proof.
  induction ev1 as [|e ev1 IH]; [done|].
  cbn [app processed]. destruct e; lia.
Qed.

Lemma processed_fetch_level ev :
  Forall (fun e => fetch_level e = true) ev -> processed ev = 0.
Proof.
  induction 1 as [|e ev He _ IH]; [done|]. by destruct e.
Qed.

(** The events of a fetch are its own, and its requests are for its page. *)
Lemma retry_loop_fetch_level page attempts s :
  exists ev,
    snd (retry_loop upstream page attempts s) = extend s ev
    /\ Forall (fun e => fetch_level e = true) ev
    /\ (forall q, Get q ∈ ev -> q = page).
Proof.
  revert s. induction attempts as [|attempt rest IH]; intros s.
  - exists [LogFailed page]. cbn [retry_loop]. unfold bind.
    rewrite emit_extend. cbn. split; [done|]. split; [by repeat constructor|].
    intros q Hq%list_elem_of_singleton. done.
  - destruct (retry_loop_step upstream page attempt rest s)
      as [(data & _ & ->)|(e & [Hio He] & _ & ->)].
    + eexists. split; [done|]. split; [by repeat constructor|].
      intros q. rewrite !elem_of_cons, elem_of_nil.
      intros [?|[?|[?|[]]]]; congruence.
    + destruct (IH (extend s ([LogFetching page attempt; Get page; e]
                              ++ pause_after attempt)))
        as (ev & -> & Hlevel & Hget).
      rewrite extend_extend. eexists. split; [done|].
      assert (Hpause : Forall (fun e0 => fetch_level e0 = true)
                              (pause_after attempt)
                       /\ forall q, Get q ∈ pause_after attempt -> q = page).
      { unfold pause_after. destruct (attempt <? MAX_RETRIES).
        - split; [by repeat constructor|].
          intros q Hq%list_elem_of_singleton. done.
        - split; [constructor|]. by intros q Hq%elem_of_nil. }
      destruct Hpause as [Hplevel Hpget]. split.
      * rewrite !Forall_app. split; [split; [by repeat constructor|done]|done].
      * intros q. rewrite !elem_of_app, !elem_of_cons, elem_of_nil.
        intros [[[?|[?|[?|[]]]]|Hq]|Hq]; try congruence; eauto.
        by subst e.
Qed.

Lemma validate_all_clean data d :
  d ∈ validate_all data -> clean_breed (breed d).
Proof.
  unfold validate_all. rewrite list_elem_of_omap.
  intros (raw & _ & Hok). by apply (validate_accepts_clean raw d).
Qed.

Lemma last_image_named k dogs :
  is_Some (last_image k dogs) -> exists d, d ∈ dogs /\ breed d = k.
Proof.
  induction dogs as [|d dogs IH]; [by intros [? ?]|]. cbn [last_image].
  destruct (last_image k dogs) as [v'|].
  - intros _. destruct (IH (mk_is_Some _ _ eq_refl)) as (d' & Hin & Hk).
    exists d'. split; [by right|done].
  - destruct (decide (breed d = k)); [|by intros [? ?]]. intros _.
    exists d. split; [by left|done].
Qed.

(** What a batch does to the keys and the size of the table. *)
Lemma batch_keys now (dogs : list dog) (t : gmap string DogCache.row) :
  dom t ⊆ dom (snd (DogCache.add_dogs_batch now dogs t))
  /\ (forall k, k ∈ dom (snd (DogCache.add_dogs_batch now dogs t)) ->
                k ∈ dom t \/ exists d, d ∈ dogs /\ breed d = k)
  /\ fst (DogCache.add_dogs_batch now dogs t) = Z.of_nat (length dogs)
  /\ (size (snd (DogCache.add_dogs_batch now dogs t)) <= size t + length dogs)%nat.
Proof.
  split; [|split; [|split]]; [| | |apply batch_size].
  - intros k. rewrite !elem_of_dom, batch_lookup.
    destruct (last_image k dogs); eauto.
  - intros k. rewrite !elem_of_dom, batch_lookup.
    destruct (last_image k dogs) as [v|] eqn:Hlast; [|by left].
    intros _. right. apply (last_image_named k dogs). by rewrite Hlast.
  - destruct dogs as [|d dogs]; [done|].
    apply (executemany_rowcount now (d :: dogs) t).
Qed.

(** What holds of the loop over any list of pages, from any state. *)
Lemma pages_loop_invariants pages consecutive_failures total_fetched s :
  exists ev,
    history (snd (pages_loop upstream clock pages consecutive_failures
                    total_fetched s))
    = history s ++ ev
    /\ last_fetch_time (snd (pages_loop upstream clock pages consecutive_failures
                              total_fetched s))
       = last_fetch_time s
    /\ (forall q, Get q ∈ ev -> q ∈ pages)
    /\ dom (db s)
         ⊆ dom (db (snd (pages_loop upstream clock pages consecutive_failures
                           total_fetched s)))
    /\ (forall k,
           k ∈ dom (db (snd (pages_loop upstream clock pages consecutive_failures
                               total_fetched s))) ->
           k ∈ dom (db s) \/ clean_breed k)
    /\ fst (pages_loop upstream clock pages consecutive_failures total_fetched s)
       = total_fetched + processed ev
    /\ 0 <= processed ev
    /\ Z.of_nat (size (db (snd (pages_loop upstream clock pages
                                  consecutive_failures total_fetched s))))
       <= Z.of_nat (size (db s)) + processed ev.
Proof.
  revert consecutive_failures total_fetched s.
  induction pages as [|page rest IH]; intros cf total s.
  { exists []. cbn. rewrite app_nil_r. repeat split; try done; try lia.
    - by intros q Hq%elem_of_nil.
    - by left. }
  rewrite pages_loop_step.
  destruct (retry_loop_fetch_level page (py_range 1 (MAX_RETRIES + 1)) s)
    as (evf & Hs1 & Hlevel & Hget).
  fold (fetch_with_retry upstream page) in Hs1.
  pose proof (processed_fetch_level evf Hlevel) as Hzero.
  destruct (fetch_with_retry upstream page s) as [r s1].
  cbn [snd] in Hs1. subst s1.
  assert (Hgetf : forall q, Get q ∈ evf -> q ∈ page :: rest).
  { intros q Hq. rewrite (Hget q Hq). by left. }
  assert (Hcontinue : forall cf' total' s2 mid,
             history s2 = history s ++ evf ++ mid ->
             last_fetch_time s2 = last_fetch_time s ->
             (forall q, Get q ∈ mid -> False) ->
             dom (db s) ⊆ dom (db s2) ->
             (forall k, k ∈ dom (db s2) -> k ∈ dom (db s) \/ clean_breed k) ->
             total' = total + processed mid ->
             0 <= processed mid ->
             Z.of_nat (size (db s2)) <= Z.of_nat (size (db s)) + processed mid ->
             exists ev,
               history (snd (pages_loop upstream clock rest cf' total' s2))
               = history s ++ ev
               /\ last_fetch_time (snd (pages_loop upstream clock rest cf' total' s2))
                  = last_fetch_time s
               /\ (forall q, Get q ∈ ev -> q ∈ page :: rest)
               /\ dom (db s)
                    ⊆ dom (db (snd (pages_loop upstream clock rest cf' total' s2)))
               /\ (forall k,
                      k ∈ dom (db (snd (pages_loop upstream clock rest cf'
                                          total' s2))) ->
                      k ∈ dom (db s) \/ clean_breed k)
               /\ fst (pages_loop upstream clock rest cf' total' s2)
                  = total + processed ev
               /\ 0 <= processed ev
               /\ Z.of_nat (size (db (snd (pages_loop upstream clock rest cf'
                                             total' s2))))
                  <= Z.of_nat (size (db s)) + processed ev).
  { intros cf' total' s2 mid Hh Hl Hmid Hdom Hclean Htotal Hpos Hsize.
    subst total'.
    destruct (IH cf' (total + processed mid) s2)
      as (evr & Hh' & Hl' & Hget' & Hdom' & Hclean' & Htotal' & Hpos' & Hsize').
    exists (evf ++ mid ++ evr).
    rewrite Hh', Hh, Hl', Hl, Htotal', !processed_app, Hzero.
    split; [by rewrite <- !app_assoc|]. split; [done|]. split.
    { intros q. rewrite !elem_of_app. intros [Hq|[Hq|Hq]]; [by eauto| |].
      - destruct (Hmid q Hq).
      - right. by apply Hget'. }
    split; [by transitivity (dom (db s2))|]. split.
    { intros k Hk. destruct (Hclean' k Hk) as [Hk2|?]; [|by right].
      by apply Hclean. }
    split; [lia|]. split; lia. }
  assert (Hleave : forall final,
             (forall q, Get q ∈ final -> False) ->
             processed final = 0 ->
             exists ev,
               history (extend (extend s evf) final) = history s ++ ev
               /\ last_fetch_time (extend (extend s evf) final) = last_fetch_time s
               /\ (forall q, Get q ∈ ev -> q ∈ page :: rest)
               /\ dom (db s) ⊆ dom (db (extend (extend s evf) final))
               /\ (forall k, k ∈ dom (db (extend (extend s evf) final)) ->
                             k ∈ dom (db s) \/ clean_breed k)
               /\ total = total + processed ev
               /\ 0 <= processed ev
               /\ Z.of_nat (size (db (extend (extend s evf) final)))
                  <= Z.of_nat (size (db s)) + processed ev).
  { intros final Hfinal Hnone. exists (evf ++ final).
    rewrite processed_app, Hzero, Hnone. cbn.
    split; [by rewrite <- app_assoc|]. split; [done|]. split.
    { intros q. rewrite elem_of_app. intros [Hq|Hq]; [by eauto|].
      destruct (Hfinal q Hq). }
    split; [done|]. split; [by left|]. split; [lia|]. split; lia. }
  destruct r as [[|item items]|].
  - (* an empty page *)
    cbn [fst snd]. apply Hleave; [|done].
    by intros q Hq%list_elem_of_singleton.
  - (* a page with items *)
    destruct (validate_all (item :: items)) as [|v vs] eqn:Hvalid.
    + apply (Hcontinue 0 total (extend s evf) []); cbn; try done; try lia.
      * by rewrite app_nil_r.
      * by intros q Hq%elem_of_nil.
      * by left.
    + cbn beta iota zeta.
      destruct (batch_keys (clock (history (extend s evf))) (v :: vs)
                  (db (extend s evf))) as (Hdom & Hnew & Hcount & Hgrow).
      destruct (DogCache.add_dogs_batch (clock (history (extend s evf)))
                  (v :: vs) (db (extend s evf))) as [added t].
      cbn [fst snd] in Hdom, Hnew, Hcount, Hgrow.
      apply (Hcontinue 0 (total + added) _
               [LogProcessed page (Z.of_nat (length (v :: vs)))
                  (Z.of_nat (length (item :: items)))]);
        cbn [history db last_fetch_time extend processed]; try done; try lia.
      * by rewrite <- app_assoc.
      * by intros q Hq%list_elem_of_singleton.
      * intros k Hk. destruct (Hnew k Hk) as [?|(d & Hd & <-)]; [by left|].
        right. apply (validate_all_clean (item :: items)). by rewrite Hvalid.
      * cbn [extend db] in Hgrow. lia.
  - (* a failed page *)
    destruct (10 <=? cf + 1).
    + cbn [fst snd]. rewrite extend_extend.
      rewrite <- (extend_extend s evf). apply Hleave; [|done].
      intros q. rewrite !elem_of_cons, elem_of_nil. by intros [?|[?|[]]].
    + apply (Hcontinue (cf + 1) total _ [LogSkipping page (cf + 1)]);
        cbn; try done; try lia.
      * by rewrite <- app_assoc.
      * by intros q Hq%list_elem_of_singleton.
      * by left.
Qed.

Lemma run_unfold start_page max_pages s :
  fetch_dogs_from_api upstream clock start_page max_pages s
  = (fst (pages_loop upstream clock
            (py_range start_page (end_page start_page max_pages)) 0 0
            (extend s [LogPlan start_page max_pages])),
     mkState
       (history (snd (pages_loop upstream clock
                        (py_range start_page (end_page start_page max_pages))
                        0 0 (extend s [LogPlan start_page max_pages])))
        ++ [LogComplete
              (fst (pages_loop upstream clock
                      (py_range start_page (end_page start_page max_pages))
                      0 0 (extend s [LogPlan start_page max_pages])))
              (Z.of_nat
                 (size (DogCache.snapshot
                          (db (snd (pages_loop upstream clock
                                      (py_range start_page
                                         (end_page start_page max_pages))
                                      0 0
                                      (extend s [LogPlan start_page max_pages])))))))])
       (db (snd (pages_loop upstream clock
                   (py_range start_page (end_page start_page max_pages)) 0 0
                   (extend s [LogPlan start_page max_pages]))))
       (Some (clock
                (history (snd (pages_loop upstream clock
                                 (py_range start_page
                                    (end_page start_page max_pages))
                                 0 0
                                 (extend s [LogPlan start_page max_pages]))))))).
Proof.
  unfold fetch_dogs_from_api, bind. rewrite emit_extend.
  by destruct (pages_loop upstream clock _ 0 0 _).
Qed.

(** What holds of every run. *)
Lemma run_invariants start_page max_pages s :
  exists ev,
    history (snd (fetch_dogs_from_api upstream clock start_page max_pages s))
    = history s
      ++ [LogPlan start_page max_pages] ++ ev
      ++ [LogComplete
            (fst (fetch_dogs_from_api upstream clock start_page max_pages s))
            (Z.of_nat
               (size (db (snd (fetch_dogs_from_api upstream clock start_page
                                 max_pages s)))))]
    /\ last_fetch_time
         (snd (fetch_dogs_from_api upstream clock start_page max_pages s))
       = Some (clock (history s ++ [LogPlan start_page max_pages] ++ ev))
    /\ (forall q, Get q ∈ ev ->
                  q ∈ py_range start_page (end_page start_page max_pages))
    /\ dom (db s)
         ⊆ dom (db (snd (fetch_dogs_from_api upstream clock start_page
                           max_pages s)))
    /\ (forall k,
           k ∈ dom (db (snd (fetch_dogs_from_api upstream clock start_page
                               max_pages s))) ->
           k ∈ dom (db s) \/ clean_breed k)
    /\ fst (fetch_dogs_from_api upstream clock start_page max_pages s)
       = processed ev
    /\ 0 <= processed ev
    /\ Z.of_nat (size (db (snd (fetch_dogs_from_api upstream clock start_page
                                  max_pages s))))
       <= Z.of_nat (size (db s)) + processed ev.
Proof.
  rewrite run_unfold. cbn [fst snd history db last_fetch_time].
  destruct (pages_loop_invariants
              (py_range start_page (end_page start_page max_pages)) 0 0
              (extend s [LogPlan start_page max_pages]))
    as (ev & Hh & _ & Hget & Hdom & Hclean & Htotal & Hpos & Hsize).
  exists ev. rewrite Hh, Htotal. cbn [extend history db] in *.
  unfold DogCache.snapshot, DogCache.get_all_dogs_dict. cbn [fst].
  rewrite map_size_fmap, <- !app_assoc.
  repeat split; try done; lia.
Qed.

Lemma run_events_split start_page max_pages s ev tail :
  history (snd (fetch_dogs_from_api upstream clock start_page max_pages s))
  = history s ++ [LogPlan start_page max_pages] ++ ev ++ [tail] ->
  (forall q, Get q ∈ ev -> q ∈ py_range start_page (end_page start_page max_pages)) ->
  forall q, q ∈ requested (run_events upstream clock start_page max_pages s) ->
            q ∈ py_range start_page (end_page start_page max_pages).
Proof.
  intros Hh Hget q. unfold run_events. rewrite Hh, drop_app_length.
  rewrite requested_elem, !elem_of_app, !list_elem_of_singleton.
  intros [Hq|[Hq|Hq]]; [done|by apply Hget|].
  destruct (run_invariants start_page max_pages s) as (ev' & Hh' & _).
  rewrite Hh in Hh'. apply app_inv_head in Hh'.
  injection Hh' as Hh'. apply app_inj_tail in Hh'. destruct Hh' as [_ ->]. done.
Qed.

Lemma py_range_in_run_range start_page max_pages q :
  q ∈ py_range start_page (end_page start_page max_pages) ->
  in_run_range start_page max_pages q.
Proof.
  unfold py_range, end_page, in_run_range, given, MAX_EXTERNAL_PAGES.
  rewrite elem_of_seqZ. destruct max_pages as [n|]; [|lia].
  destruct (n =? 0) eqn:Hn; cbn [negb]; lia.
Qed.

Lemma run_requests_in_range_aux start_page max_pages s :
  Forall (in_run_range start_page max_pages)
         (requested (run_events upstream clock start_page max_pages s)).
Proof.
  apply Forall_forall. intros q Hq. apply py_range_in_run_range.
  destruct (run_invariants start_page max_pages s) as (ev & Hh & _ & Hget & _).
  by apply (run_events_split start_page max_pages s ev _ Hh Hget).
Qed.

(** X13. A run asks only for pages from [start_page] up to page 50, and,
    when [max_pages] is given and not 0, only for the [max_pages] pages from
    [start_page] on. *)
Theorem run_requests_in_range start_page max_pages s :
  Forall (in_run_range start_page max_pages)
         (requested (run_events upstream clock start_page max_pages s)).
Proof. exact (run_requests_in_range_aux start_page max_pages s). Qed.

(** X14. A run removes no key from the store, and every key it adds is a
    clean breed. *)
Theorem run_store_keys start_page max_pages s :
  dom (DogCache.snapshot (db s))
    ⊆ dom (DogCache.snapshot
             (db (snd (fetch_dogs_from_api upstream clock start_page
                         max_pages s))))
  /\ (forall k,
         k ∈ dom (DogCache.snapshot
                    (db (snd (fetch_dogs_from_api upstream clock start_page
                                max_pages s)))) ->
         k ∈ dom (DogCache.snapshot (db s)) \/ clean_breed k).
Proof.
  unfold DogCache.snapshot, DogCache.get_all_dogs_dict. cbn [fst].
  rewrite !dom_fmap_L.
  destruct (run_invariants start_page max_pages s)
    as (ev & _ & _ & _ & Hdom & Hclean & _).
  by split.
Qed.

(** X15. The number a run returns is the sum of the sizes of the batches it
    stored, one batch for each page with an accepted record; it is never
    negative, and the store grows by at most that number. *)
Theorem run_count start_page max_pages s :
  fst (fetch_dogs_from_api upstream clock start_page max_pages s)
  = processed (run_events upstream clock start_page max_pages s)
  /\ 0 <= fst (fetch_dogs_from_api upstream clock start_page max_pages s)
  /\ Z.of_nat (size (DogCache.snapshot
                       (db (snd (fetch_dogs_from_api upstream clock start_page
                                   max_pages s)))))
     <= Z.of_nat (size (DogCache.snapshot (db s)))
        + fst (fetch_dogs_from_api upstream clock start_page max_pages s).
Proof.
  unfold DogCache.snapshot, DogCache.get_all_dogs_dict. cbn [fst].
  rewrite !map_size_fmap.
  destruct (run_invariants start_page max_pages s)
    as (ev & Hh & _ & _ & _ & _ & Htotal & Hpos & Hsize).
  unfold run_events. rewrite Hh, drop_app_length, Htotal.
  rewrite !processed_app. cbn [processed]. split; [lia|]. split; lia.
Qed.


Lemma requested_app ev1 ev2 : requested (ev1 ++ ev2) = requested ev1 ++ requested ev2.
Proof. apply omap_app. Qed.

(** With pages that come back with items, the loop asks for each page once,
    in order. *)
Lemma pages_loop_healthy pages consecutive_failures total_fetched s :
  Forall (fun p => forall h, page_with_items (upstream h p)) pages ->
  exists ev,
    history (snd (pages_loop upstream clock pages consecutive_failures
                    total_fetched s))
    = history s ++ ev
    /\ requested ev = pages.
Proof.
  intros Hgood. revert consecutive_failures total_fetched s.
  induction Hgood as [|page rest Hpage _ IH]; intros cf total s.
  { exists []. cbn. by rewrite app_nil_r. }
  rewrite pages_loop_step.
  destruct (Hpage (history s ++ [LogFetching page 1])) as (item & items & Hr).
  rewrite (fetch_with_retry_ok upstream page (item :: items) s Hr).
  cbn iota.
  destruct (validate_all (item :: items)) as [|v vs]; cbn beta iota zeta.
  - match goal with
    | |- context [pages_loop _ _ _ 0 ?t0 (extend s ?evs)] =>
        destruct (IH 0 t0 (extend s evs)) as (ev & Hh & Hreq);
        exists (evs ++ ev)
    end.
    rewrite Hh, requested_app, Hreq. cbn [history extend].
    split; [by rewrite <- app_assoc|done].
  - match goal with
    | |- context [DogCache.add_dogs_batch ?n ?d ?t0] =>
        destruct (DogCache.add_dogs_batch n d t0) as [added t]
    end.
    match goal with
    | |- context [pages_loop _ _ _ 0 ?t0
                    (mkState (history (extend s ?evs) ++ ?more) ?t1 ?l1)] =>
        destruct (IH 0 t0 (mkState (history (extend s evs) ++ more) t1 l1))
          as (ev & Hh & Hreq);
        exists (evs ++ more ++ ev)
    end.
    rewrite Hh, !requested_app, Hreq. cbn [history extend].
    split; [by rewrite <- !app_assoc|done].
Qed.

(** X17. When every page of the range comes back with items at the first
    attempt, the run asks for each page of the range exactly once, in
    increasing order. *)
Theorem healthy_run_requests_each_page_once start_page max_pages s :
  (forall h p, p ∈ py_range start_page (end_page start_page max_pages) ->
               page_with_items (upstream h p)) ->
  requested (run_events upstream clock start_page max_pages s)
  = py_range start_page (end_page start_page max_pages).
Proof.
  intros Hgood. unfold run_events. rewrite run_unfold.
  cbn [snd history].
  destruct (pages_loop_healthy
              (py_range start_page (end_page start_page max_pages)) 0 0
              (extend s [LogPlan start_page max_pages]))
    as (ev & Hh & Hreq).
  { apply Forall_forall. intros p Hp h. by apply Hgood. }
  rewrite Hh. cbn [extend history].
  rewrite <- !app_assoc, drop_app_length, !requested_app, Hreq.
  cbn. by rewrite app_nil_r.
Qed.

Lemma ok_reply_not_failed data : ~ failed_attempt (ok_reply data).
Proof. intros [Hcode|Hbody]; [done|]. by destruct (Hbody data). Qed.

(** Against a steady upstream a fetch gives the same result from any
    state. *)
Lemma retry_loop_steady page attempts s1 s2 :
  steady upstream ->
  fst (retry_loop upstream page attempts s1)
  = fst (retry_loop upstream page attempts s2).
Proof.
  intros Hsteady. revert s1 s2.
  induction attempts as [|attempt rest IH]; intros s1 s2; [done|].
  destruct (retry_loop_step upstream page attempt rest s1)
    as [(data1 & Hok1 & ->)|(e1 & _ & Hfail1 & ->)];
    destruct (retry_loop_step upstream page attempt rest s2)
      as [(data2 & Hok2 & ->)|(e2 & _ & Hfail2 & ->)].
  - rewrite (Hsteady _ (history s2 ++ [LogFetching page attempt])) in Hok1.
    rewrite Hok1 in Hok2. by injection Hok2 as ->.
  - rewrite (Hsteady _ (history s1 ++ [LogFetching page attempt])) in Hfail2.
    rewrite Hok1 in Hfail2. by destruct (ok_reply_not_failed data1).
  - rewrite (Hsteady _ (history s2 ++ [LogFetching page attempt])) in Hfail1.
    rewrite Hok2 in Hfail1. by destruct (ok_reply_not_failed data2).
  - apply IH.
Qed.

Lemma fetch_keeps_store page s :
  db (snd (fetch_with_retry upstream page s)) = db s.
Proof.
  destruct (retry_loop_fetch_level page (py_range 1 (MAX_RETRIES + 1)) s)
    as (ev & Hs & _).
  unfold fetch_with_retry. by rewrite Hs.
Qed.

(** Against a steady upstream the loop stores the same records, and returns
    the same number, from any two states. *)
Lemma pages_loop_steady pages consecutive_failures total_fetched s1 s2 :
  steady upstream ->
  exists dogs,
    fst (pages_loop upstream clock pages consecutive_failures total_fetched s1)
    = fst (pages_loop upstream clock pages consecutive_failures total_fetched s2)
    /\ DogCache.snapshot
         (db (snd (pages_loop upstream clock pages consecutive_failures
                     total_fetched s1)))
       = upsert_images (DogCache.snapshot (db s1)) dogs
    /\ DogCache.snapshot
         (db (snd (pages_loop upstream clock pages consecutive_failures
                     total_fetched s2)))
       = upsert_images (DogCache.snapshot (db s2)) dogs.
Proof.
  intros Hsteady. revert consecutive_failures total_fetched s1 s2.
  induction pages as [|page rest IH]; intros cf total s1 s2.
  { by exists []. }
  rewrite !pages_loop_step.
  pose proof (retry_loop_steady page (py_range 1 (MAX_RETRIES + 1)) s1 s2 Hsteady)
    as Hsame.
  fold (fetch_with_retry upstream page) in Hsame.
  pose proof (fetch_keeps_store page s1) as Hdb1.
  pose proof (fetch_keeps_store page s2) as Hdb2.
  destruct (fetch_with_retry upstream page s1) as [r1 t1].
  destruct (fetch_with_retry upstream page s2) as [r2 t2].
  cbn [fst snd] in Hsame, Hdb1, Hdb2. subst r2.
  destruct r1 as [[|item items]|].
  - exists []. cbn. by rewrite Hdb1, Hdb2.
  - destruct (validate_all (item :: items)) as [|v vs] eqn:Hvalid;
      cbn beta iota zeta.
    + destruct (IH 0 total t1 t2) as (dogs & Hfst & H1 & H2).
      exists dogs. by rewrite Hfst, H1, H2, Hdb1, Hdb2.
    + pose proof (add_dogs_batch_snapshot (clock (history t1)) (v :: vs) (db t1))
        as Hsnap1.
      pose proof (add_dogs_batch_snapshot (clock (history t2)) (v :: vs) (db t2))
        as Hsnap2.
      destruct (batch_keys (clock (history t1)) (v :: vs) (db t1))
        as (_ & _ & Hcount1 & _).
      destruct (batch_keys (clock (history t2)) (v :: vs) (db t2))
        as (_ & _ & Hcount2 & _).
      destruct (DogCache.add_dogs_batch (clock (history t1)) (v :: vs) (db t1))
        as [added1 u1].
      destruct (DogCache.add_dogs_batch (clock (history t2)) (v :: vs) (db t2))
        as [added2 u2].
      cbn [fst snd] in *. subst added1 added2.
      match goal with
      | |- context [pages_loop _ _ rest 0 ?n (mkState ?h1 u1 ?l1)] =>
          match goal with
          | |- context [pages_loop _ _ rest 0 n (mkState ?h2 u2 ?l2)] =>
              destruct (IH 0 n (mkState h1 u1 l1) (mkState h2 u2 l2))
                as (dogs & Hfst & H1 & H2)
          end
      end.
      exists ((v :: vs) ++ dogs).
      rewrite Hfst, H1, H2. cbn [db]. rewrite Hsnap1, Hsnap2, Hdb1, Hdb2.
      unfold upsert_images. by rewrite !fold_left_app.
  - destruct (10 <=? cf + 1).
    + exists []. cbn. by rewrite Hdb1, Hdb2.
    + destruct (IH (cf + 1) total (extend t1 [LogSkipping page (cf + 1)])
                  (extend t2 [LogSkipping page (cf + 1)]))
        as (dogs & Hfst & H1 & H2).
      exists dogs. rewrite Hfst, H1, H2. cbn. by rewrite Hdb1, Hdb2.
Qed.

(** X25. Against an upstream whose replies do not change, a run is
    idempotent: the same run started again from the state the first one left
    returns the same number and leaves the snapshot of the store as the
    first one left it. *)
Theorem steady_run_idempotent start_page max_pages s :
  steady upstream ->
  fst (fetch_dogs_from_api upstream clock start_page max_pages
         (snd (fetch_dogs_from_api upstream clock start_page max_pages s)))
  = fst (fetch_dogs_from_api upstream clock start_page max_pages s)
  /\ DogCache.snapshot
       (db (snd (fetch_dogs_from_api upstream clock start_page max_pages
                   (snd (fetch_dogs_from_api upstream clock start_page
                           max_pages s)))))
     = DogCache.snapshot
         (db (snd (fetch_dogs_from_api upstream clock start_page max_pages s))).
Proof.
  intros Hsteady.
  rewrite (run_unfold start_page max_pages
             (snd (fetch_dogs_from_api upstream clock start_page max_pages s))).
  cbn [fst snd db].
  destruct (pages_loop_steady
              (py_range start_page (end_page start_page max_pages)) 0 0
              (extend (snd (fetch_dogs_from_api upstream clock start_page
                              max_pages s))
                      [LogPlan start_page max_pages])
              (extend s [LogPlan start_page max_pages]) Hsteady)
    as (dogs & Hfst & H2 & H1).
  rewrite Hfst, H2. cbn [extend db].
  rewrite (run_unfold start_page max_pages s). cbn [fst snd db].
  split; [done|]. rewrite H1. cbn [extend db]. apply upsert_images_twice.
Qed.

(** X18. The bootstrap leaves everything as it is when the store holds a
    record; otherwise it asks for pages 1 to 5 at most. *)
Theorem quick_initial_fetch_bounded s :
  (db s <> ∅ -> snd (App.quick_initial_fetch upstream clock s) = s)
  /\ Forall (fun q => 1 <= q <= 5)
       (requested
          (events_since s (snd (App.quick_initial_fetch upstream clock s)))).
Proof.
  unfold App.quick_initial_fetch, bind, cache_size, events_since.
  unfold DogCache.snapshot, DogCache.get_all_dogs_dict. cbn [fst].
  rewrite map_size_fmap.
  destruct (Z.of_nat (size (db s)) =? 0) eqn:Hsize.
  - split.
    + intros Hne. apply Z.eqb_eq in Hsize.
      apply map_size_non_empty_iff in Hne. lia.
    + destruct (fetch_dogs_from_api upstream clock 1 (Some 5) s) as [n s'] eqn:Hrun.
      cbn [snd ret].
      pose proof (run_requests_in_range_aux 1 (Some 5) s) as Hrange.
      unfold run_events in Hrange. rewrite Hrun in Hrange. cbn [snd] in Hrange.
      eapply Forall_impl; [exact Hrange|].
      intros q [? [?|?]]; lia.
  - split; [done|]. cbn [snd ret]. rewrite drop_all. constructor.
Qed.

(** X19. The refresh job never makes the store smaller (the change it logs
    is never negative), and it asks only for pages 1 to 50. *)
Theorem periodic_refresh_never_shrinks s :
  0 <= fst (App.periodic_cache_refresh_job upstream clock s)
  /\ Forall (fun q => 1 <= q <= 50)
       (requested
          (events_since s
             (snd (App.periodic_cache_refresh_job upstream clock s)))).
Proof.
  unfold App.periodic_cache_refresh_job, bind, cache_size, events_since.
  unfold DogCache.snapshot, DogCache.get_all_dogs_dict. cbn [fst].
  rewrite !map_size_fmap.
  pose proof (run_requests_in_range_aux 1 None s) as Hrange.
  destruct (run_invariants 1 None s) as (_ & _ & _ & _ & Hdom & _).
  unfold run_events in Hrange.
  destruct (fetch_dogs_from_api upstream clock 1 None s) as [n s'].
  cbn [fst snd ret] in *. rewrite map_size_fmap. split.
  - apply subseteq_size in Hdom. rewrite !size_dom in Hdom. lia.
  - eapply Forall_impl; [exact Hrange|].
    intros q [? _]. unfold MAX_EXTERNAL_PAGES in *. lia.
Qed.

End RunMore.

(** ** Job scheduler *)

Section SchedulerMore.
Import Scheduler.

Variable World : Type.

Implicit Types (j : job World) (jobs : list (job World)) (w : World).

Lemma once_names_app out1 out2 :
  once_names (out1 ++ out2) = once_names out1 ++ once_names out2.
Proof. apply omap_app. Qed.

(** One job in a pass: a one-shot job is called and dropped, a recurring job
    is kept and logs no one-shot line. *)
Lemma run_job_kinds current_time j w k w' out :
  run_job current_time j w = Some (k, w', out) ->
  if run_once j
  then k = None /\ once_names out = [name j]
  else once_names out = []
       /\ exists j', k = Some j' /\ run_once j' = false
                     /\ after_pass current_time j j'.
Proof.
  unfold run_job, after_pass. destruct (run_once j) eqn:Honce.
  - destruct (call (func j) w); by intros [= <- <- <-].
  - destruct (interval j) as [every|]; [|done].
    destruct (every <=? current_time - last_run j).
    + destruct (call (func j) w); intros [= <- <- <-]; (split; [done|]);
        eexists; (split; [done|]); by eauto.
    + intros [= <- <- <-]. split; [done|]. eexists. by eauto.
Qed.

Lemma tick_kinds current_time jobs w jobs' w' out :
  tick current_time jobs w = Some (jobs', w', out) ->
  once_names out = name <$> one_shots jobs
  /\ Forall2 (after_pass current_time) (recurring jobs) jobs'
  /\ Forall (fun j => run_once j = false) jobs'.
Proof.
  revert w jobs' w' out.
  induction jobs as [|j jobs IH]; intros w jobs' w' out.
  { intros [= <- <- <-]. by repeat constructor. }
  cbn [tick one_shots recurring].
  destruct (run_job current_time j w) as [[[k w1] out1]|] eqn:Hrun; [|done].
  destruct (tick current_time jobs w1) as [[[jobs2 w2] out2]|] eqn:Htick;
    [|done].
  intros [= <- <- <-].
  destruct (IH _ _ _ _ Htick) as (Hnames & Hrec & Hall).
  apply run_job_kinds in Hrun. rewrite once_names_app, Hnames.
  destruct (run_once j).
  - destruct Hrun as [-> ->]. by cbn.
  - destruct Hrun as (-> & j' & -> & Honce' & Hafter). cbn.
    repeat split; [by constructor|by constructor].
Qed.

Lemma recurring_all jobs :
  Forall (fun j => run_once j = false) jobs ->
  one_shots jobs = [] /\ recurring jobs = jobs.
Proof.
  induction 1 as [|j jobs Hj _ [IH1 IH2]]; [done|].
  cbn. rewrite Hj. by rewrite IH2.
Qed.

Lemma run_loop_no_one_shots times jobs w jobs' w' outs :
  Forall (fun j => run_once j = false) jobs ->
  _run_loop times jobs w = Some (jobs', w', outs) ->
  Forall (fun out => once_names out = []) outs
  /\ Forall (fun j => run_once j = false) jobs'.
Proof.
  revert jobs w jobs' w' outs.
  induction times as [|t times IH]; intros jobs w jobs' w' outs Hrec.
  { by intros [= <- <- <-]. }
  cbn [_run_loop].
  destruct (tick t jobs w) as [[[jobs1 w1] out]|] eqn:Htick; [|done].
  destruct (_run_loop times jobs1 w1) as [[[jobs2 w2] outs2]|] eqn:Hloop;
    [|done].
  intros [= <- <- <-].
  destruct (tick_kinds _ _ _ _ _ _ Htick) as (Hnames & _ & Hrec1).
  destruct (IH _ _ _ _ _ Hrec1 Hloop) as [Houts Hrec2].
  split; [|done]. constructor; [|done].
  rewrite Hnames. by destruct (recurring_all jobs Hrec) as [-> _].
Qed.

(** X20. The first pass of the loop calls the function of every one-shot
    job, in the order of registration and whether it returns or raises, and
    drops these jobs; no later pass calls one, and only recurring jobs are
    left in the list. *)
Theorem one_shot_jobs_run_once t times jobs w jobs' w' outs :
  _run_loop (t :: times) jobs w = Some (jobs', w', outs) ->
  exists first later,
    outs = first :: later
    /\ once_names first = name <$> one_shots jobs
    /\ Forall (fun out => once_names out = []) later
    /\ Forall (fun j => run_once j = false) jobs'.
Proof.
  cbn [_run_loop].
  destruct (tick t jobs w) as [[[jobs1 w1] out]|] eqn:Htick; [|done].
  destruct (_run_loop times jobs1 w1) as [[[jobs2 w2] outs2]|] eqn:Hloop;
    [|done].
  intros [= <- <- <-].
  destruct (tick_kinds _ _ _ _ _ _ Htick) as (Hnames & _ & Hrec1).
  destruct (run_loop_no_one_shots _ _ _ _ _ _ Hrec1 Hloop) as [Houts Hrec2].
  by exists out, outs2.
Qed.

(** X21. A pass neither drops, adds nor reorders recurring jobs: the list
    after it is the list of the recurring jobs before it, each one as it
    was or with [last_run] set to the clock reading of the pass. *)
Theorem pass_keeps_recurring_jobs current_time jobs w jobs' w' out :
  tick current_time jobs w = Some (jobs', w', out) ->
  Forall2 (after_pass current_time) (recurring jobs) jobs'.
Proof. intros Htick. by destruct (tick_kinds _ _ _ _ _ _ Htick) as (_ & ? & _). Qed.

Lemma register_all_well_formed (calls : list (registration World)) :
  Forall well_formed (register_all calls).
Proof.
  unfold register_all.
  assert (Hfold : forall jobs, Forall well_formed jobs ->
                               Forall well_formed
                                 (fold_left
                                    (fun jobs c =>
                                       add_job jobs (fst (fst c)) (snd (fst c))
                                         (snd c)) calls jobs)).
  { induction calls as [|c calls IH]; intros jobs Hjobs; [done|].
    cbn [fold_left]. apply IH. by apply add_job_well_formed. }
  apply Hfold. constructor.
Qed.

Lemma run_loop_total times jobs w :
  Forall well_formed jobs -> is_Some (_run_loop times jobs w).
Proof.
  revert jobs w. induction times as [|t times IH]; intros jobs w Hjobs;
    [done|].
  cbn [_run_loop].
  destruct (tick_total World t jobs w Hjobs) as (jobs1 & w1 & out & -> & Hwf).
  destruct (IH jobs1 w1 Hwf) as [[[jobs2 w2] outs] ->]. done.
Qed.

(** X22. With jobs that were all registered through [add_job], the loop
    never dies: every pass completes whatever the functions of the jobs do,
    return or raise. *)
Theorem registered_jobs_never_stop_the_loop
        (calls : list (registration World)) times w :
  is_Some (_run_loop times (register_all calls) w).
Proof. apply run_loop_total, register_all_well_formed. Qed.



End SchedulerMore.


(** ** Instances of the properties that have a premise *)

(** The run against an upstream whose page 7 is empty stores the breed of the
    one item the other pages hold. *)
Lemma run_store_keys_witness :
  "Akita"%string
    ∈ dom (DogCache.snapshot
             (Ingest.db
                (snd (Ingest.fetch_dogs_from_api (upstream_empty_at 7)
                        (fun _ => 0) 1 None (Ingest.initial ∅)))))
  /\ ("Akita"%string ∈ dom (DogCache.snapshot (Ingest.db (Ingest.initial ∅)))
      \/ clean_breed "Akita").
Proof.
  assert (H : "Akita"%string
                ∈ dom (DogCache.snapshot
                         (Ingest.db
                            (snd (Ingest.fetch_dogs_from_api
                                    (upstream_empty_at 7) (fun _ => 0) 1 None
                                    (Ingest.initial ∅)))))).
  { apply elem_of_dom. exists "akita-1"%string. vm_compute. reflexivity. }
  split; [exact H|].
  exact (proj2 (run_store_keys (upstream_empty_at 7) (fun _ => 0) 1 None
                  (Ingest.initial ∅)) "Akita"%string H).
Defined.

(** Every page below 100 holds an item: the bootstrap range is asked for
    page by page. *)
Lemma healthy_run_requests_each_page_once_witness :
  (forall h p, p ∈ py_range 1 (Ingest.end_page 1 (Some 5)) ->
               page_with_items (upstream_down_from 100 h p))
  /\ Ingest.requested
       (run_events (upstream_down_from 100) (fun _ => 0) 1 (Some 5)
          (Ingest.initial ∅))
     = py_range 1 (Ingest.end_page 1 (Some 5)).
Proof.
  assert (H : forall h p, p ∈ py_range 1 (Ingest.end_page 1 (Some 5)) ->
                          page_with_items (upstream_down_from 100 h p)).
  { intros h p Hp. unfold py_range in Hp. apply elem_of_seqZ in Hp.
    change (Ingest.end_page 1 (Some 5)) with 6 in Hp.
    unfold upstream_down_from. destruct (p <? 100) eqn:Hlt; [|lia].
    by eexists _, _. }
  split; [exact H|].
  exact (healthy_run_requests_each_page_once (upstream_down_from 100)
           (fun _ => 0) 1 (Some 5) (Ingest.initial ∅) H).
Defined.

(** With the sixteen records in the store the bootstrap does nothing. *)
Lemma quick_initial_fetch_bounded_witness :
  Ingest.db (Ingest.initial kennel) <> ∅
  /\ snd (App.quick_initial_fetch (upstream_down_from 100) (fun _ => 0)
            (Ingest.initial kennel))
     = Ingest.initial kennel.
Proof.
  assert (H : Ingest.db (Ingest.initial kennel) <> ∅).
  { intros Hempty.
    assert (Hlook : Ingest.db (Ingest.initial kennel) !! "Akita"%string
                    = Some (DogCache.mkRow "img" 0 0))
      by (vm_compute; reflexivity).
    rewrite Hempty in Hlook. by rewrite lookup_empty in Hlook. }
  split; [exact H|].
  exact (proj1 (quick_initial_fetch_bounded (upstream_down_from 100)
                  (fun _ => 0) (Ingest.initial kennel)) H).
Defined.

(** A one-shot job and a recurring job over two passes. *)
Lemma one_shot_jobs_run_once_witness :
  Scheduler._run_loop [1000; 1001]
    (register_all [(counting, None, Some "once"%string);
                   (counting, Some 5, None)]) 0%nat
  = Some ([Scheduler.mkJob nat counting (Some 5) "refresh" 1000 false],
          2%nat,
          [[Scheduler.RunningOnce "once"; Scheduler.CompletedOnce "once";
            Scheduler.Running "refresh"; Scheduler.Completed "refresh"];
           []])
  /\ exists first later,
      [[Scheduler.RunningOnce "once"; Scheduler.CompletedOnce "once";
        Scheduler.Running "refresh"; Scheduler.Completed "refresh"];
       []]
      = first :: later
      /\ once_names first
         = Scheduler.name
             <$> one_shots (register_all [(counting, None, Some "once"%string);
                                          (counting, Some 5, None)])
      /\ Forall (fun out => once_names out = []) later
      /\ Forall (fun j => Scheduler.run_once j = false)
                [Scheduler.mkJob nat counting (Some 5) "refresh" 1000 false].
Proof.
  assert (H : Scheduler._run_loop [1000; 1001]
                (register_all [(counting, None, Some "once"%string);
                               (counting, Some 5, None)]) 0%nat
              = Some ([Scheduler.mkJob nat counting (Some 5) "refresh" 1000 false],
                      2%nat,
                      [[Scheduler.RunningOnce "once";
                        Scheduler.CompletedOnce "once";
                        Scheduler.Running "refresh";
                        Scheduler.Completed "refresh"];
                       []]))
    by reflexivity.
  split; [exact H|].
  exact (one_shot_jobs_run_once nat 1000 [1001] _ 0%nat _ _ _ H).
Defined.

Lemma pass_keeps_recurring_jobs_witness :
  Scheduler.tick 1000
    (register_all [(counting, None, Some "once"%string);
                   (counting, Some 5, None)]) 0%nat
  = Some ([Scheduler.mkJob nat counting (Some 5) "refresh" 1000 false],
          2%nat,
          [Scheduler.RunningOnce "once"; Scheduler.CompletedOnce "once";
           Scheduler.Running "refresh"; Scheduler.Completed "refresh"])
  /\ Forall2 (after_pass 1000)
       (recurring (register_all [(counting, None, Some "once"%string);
                                 (counting, Some 5, None)]))
       [Scheduler.mkJob nat counting (Some 5) "refresh" 1000 false].
Proof.
  assert (H : Scheduler.tick 1000
                (register_all [(counting, None, Some "once"%string);
                               (counting, Some 5, None)]) 0%nat
              = Some ([Scheduler.mkJob nat counting (Some 5) "refresh" 1000 false],
                      2%nat,
                      [Scheduler.RunningOnce "once";
                       Scheduler.CompletedOnce "once";
                       Scheduler.Running "refresh";
                       Scheduler.Completed "refresh"]))
    by reflexivity.
  split; [exact H|].
  exact (pass_keeps_recurring_jobs nat 1000 _ 0%nat _ _ _ H).
Defined.



(** An upstream whose replies depend on the page alone is steady. *)
Lemma steady_run_idempotent_witness :
  steady (upstream_empty_at 7)
  /\ fst (Ingest.fetch_dogs_from_api (upstream_empty_at 7) (fun _ => 0) 1 None
            (snd (Ingest.fetch_dogs_from_api (upstream_empty_at 7)
                    (fun _ => 0) 1 None (Ingest.initial ∅))))
     = fst (Ingest.fetch_dogs_from_api (upstream_empty_at 7) (fun _ => 0) 1 None
              (Ingest.initial ∅))
  /\ DogCache.snapshot
       (Ingest.db
          (snd (Ingest.fetch_dogs_from_api (upstream_empty_at 7) (fun _ => 0)
                  1 None
                  (snd (Ingest.fetch_dogs_from_api (upstream_empty_at 7)
                          (fun _ => 0) 1 None (Ingest.initial ∅))))))
     = DogCache.snapshot
         (Ingest.db
            (snd (Ingest.fetch_dogs_from_api (upstream_empty_at 7) (fun _ => 0)
                    1 None (Ingest.initial ∅)))).
Proof.
  assert (H : steady (upstream_empty_at 7)) by (intros h h' page; reflexivity).
  split; [exact H|].
  exact (steady_run_idempotent (upstream_empty_at 7) (fun _ => 0) 1 None
           (Ingest.initial ∅) H).
Defined.
